(** * elfs: the local connector and the command-line shell

    A shallow embedding of [connector/local/connector.go] and of
    [bin/elfs-cli/main.go], with the statements of the specification that
    concern them.

    The operating system and the driver are the environment of this code.
    The disk is a finite map from cleaned absolute paths to nodes, the
    process has a table of active connections, and the shell talks to the
    driver through a typed signature of driver calls. *)

From Stdlib Require Import ZArith Ascii String.
From stdpp Require Import gmap strings list pretty finite vector.

Local Open Scope Z_scope.
Set Warnings "-register-all".

(** ** Go errors *)

(** The error numbers the modelled system calls can produce. *)
Inductive Errno := ENOENT | ENOTDIR | EISDIR | EACCES | EEXIST | ENOTEMPTY.

(** A non-nil Go [error] value.  [errors.New] and [errors.Errorf] build a
    message, [errors.Wrap] and [errors.WithStack] annotate a cause, the [os]
    package reports a [*PathError], and [ForeignError] stands for an error
    value made by a package that is not modelled (the driver, strconv,
    shellquote). *)
Inductive Error :=
| PathError (op path : string) (errno : Errno)
| ErrorNew (msg : string)
| ErrorWrap (cause : Error) (msg : string)
| ErrorStack (cause : Error)
| ForeignError (msg : string).

(** Go's [error] interface: [None] is [nil]. *)
Definition error := option Error.

(** A Go result pair [(value, error)] of which exactly one side is set. *)
Inductive result (A : Type) :=
| Ok (a : A)
| Err (e : Error).
Arguments Ok {A} a.
Arguments Err {A} e.

(** [errors.Wrap(err, msg)]: nil stays nil. *)
Definition Wrap (err : error) (msg : string) : error :=
  match err with
  | None => None
  | Some e => Some (ErrorWrap e msg)
  end.

(** [errors.WithStack(err)]: nil stays nil. *)
Definition WithStack (err : error) : error :=
  match err with
  | None => None
  | Some e => Some (ErrorStack e)
  end.

(** [os.IsNotExist(err)] for the errors of the [os] package. *)
Definition IsNotExist (e : Error) : bool :=
  match e with
  | PathError _ _ ENOENT => true
  | _ => false
  end.

(** ** The disk *)

Inductive Node :=
| Dir
| File (data : string).

(** [nodes] maps a cleaned absolute path to what is there; the root
    directory always exists and is not stored.  [denied] is the set of paths
    on which every system call of this process fails with EACCES. *)
Record Disk := mkDisk {
  nodes : gmap string Node;
  denied : gset string
}.

Definition set_nodes (d : Disk) (m : gmap string Node) : Disk :=
  {| nodes := m; denied := denied d |}.

Definition SEP : string := "/".

(** [filepath.Join(a, b)] for cleaned elements: empty elements are ignored
    and nothing is appended twice after the root. *)
Definition Join (a b : string) : string :=
  if decide (a = EmptyString) then b
  else if decide (b = EmptyString) then a
  else if decide (a = SEP) then a +:+ b
  else a +:+ SEP +:+ b.

(** The proper ancestors of a cleaned path, outermost first, without the
    root: every prefix that ends just before a separator. *)
Fixpoint parents_from (acc rest : string) : list string :=
  match rest with
  | EmptyString => []
  | String c rest' =>
      let acc' := acc +:+ String c EmptyString in
      if decide (c = "/"%char) then
        if decide (acc = EmptyString) then parents_from acc' rest'
        else acc :: parents_from acc' rest'
      else parents_from acc' rest'
  end.

Definition path_parents (p : string) : list string := parents_from EmptyString p.

(** What is at [p]. *)
Definition node_at (d : Disk) (p : string) : option Node :=
  if decide (p = SEP) then Some Dir else nodes d !! p.

Definition is_file_at (d : Disk) (p : string) : bool :=
  match node_at d p with
  | Some (File _) => true
  | _ => false
  end.

Definition is_dir_at (d : Disk) (p : string) : bool :=
  match node_at d p with
  | Some Dir => true
  | _ => false
  end.

(** The error of a system call on a path that is not there: ENOTDIR when a
    file is in the way, ENOENT otherwise. *)
Definition missing_errno (d : Disk) (p : string) : Errno :=
  if existsb (is_file_at d) (path_parents p) then ENOTDIR else ENOENT.

(** [os.Stat] and [os.Open] (for reading): both yield the node. *)
Definition os_Stat (d : Disk) (p : string) : result Node :=
  if decide (p ∈ denied d) then Err (PathError "stat" p EACCES)
  else match node_at d p with
       | Some n => Ok n
       | None => Err (PathError "stat" p (missing_errno d p))
       end.

Definition os_Open (d : Disk) (p : string) : result Node :=
  if decide (p ∈ denied d) then Err (PathError "open" p EACCES)
  else match node_at d p with
       | Some n => Ok n
       | None => Err (PathError "open" p (missing_errno d p))
       end.

(** [ioutil.ReadAll] on an open handle: a directory cannot be read. *)
Definition ReadAll (p : string) (n : Node) : result string :=
  match n with
  | File data => Ok data
  | Dir => Err (PathError "read" p EISDIR)
  end.

(** Every proper ancestor of [p] is a directory. *)
Definition parents_ok (d : Disk) (p : string) : bool :=
  forallb (is_dir_at d) (path_parents p).

(** [ioutil.WriteFile(p, data, perm)]: create or truncate, then write. *)
Definition WriteFile (d : Disk) (p data : string) : error * Disk :=
  if decide (p ∈ denied d) then (Some (PathError "open" p EACCES), d)
  else if is_dir_at d p then (Some (PathError "open" p EISDIR), d)
  else if negb (parents_ok d p) then (Some (PathError "open" p (missing_errno d p)), d)
  else (None, set_nodes d (<[p := File data]> (nodes d))).

(** Some stored path lies below [p]. *)
Definition has_children (d : Disk) (p : string) : bool :=
  bool_decide (set_Exists (λ q, p ∈ path_parents q) (dom (nodes d))).

(** [os.Remove(p)]: a file, or an empty directory. *)
Definition os_Remove (d : Disk) (p : string) : error * Disk :=
  if decide (p ∈ denied d) then (Some (PathError "remove" p EACCES), d)
  else match nodes d !! p with
       | None => (Some (PathError "remove" p (missing_errno d p)), d)
       | Some (File _) => (None, set_nodes d (delete p (nodes d)))
       | Some Dir =>
           if has_children d p then (Some (PathError "remove" p ENOTEMPTY), d)
           else (None, set_nodes d (delete p (nodes d)))
       end.

(** [os.Mkdir(p, perm)]. *)
Definition os_Mkdir (d : Disk) (p : string) : error * Disk :=
  if decide (p ∈ denied d) then (Some (PathError "mkdir" p EACCES), d)
  else match node_at d p with
       | Some _ => (Some (PathError "mkdir" p EEXIST), d)
       | None =>
           if negb (parents_ok d p) then (Some (PathError "mkdir" p (missing_errno d p)), d)
           else (None, set_nodes d (<[p := Dir]> (nodes d)))
       end.

(** [os.MkdirAll] on the chain [p :: parent p :: ...] (innermost first):
    the fast path stops at a path that is already there; otherwise the parent
    is made first and then [Mkdir] is called, an error of which stands unless
    the directory is there after all. *)
Fixpoint mkdir_chain (chain : list string) (d : Disk) : error * Disk :=
  match chain with
  | [] => (None, d)
  | p :: up =>
      match os_Stat d p with
      | Ok Dir => (None, d)
      | Ok (File _) => (Some (PathError "mkdir" p ENOTDIR), d)
      | Err _ =>
          match mkdir_chain up d with
          | (Some e, d') => (Some e, d')
          | (None, d') =>
              match os_Mkdir d' p with
              | (Some e, d'') =>
                  match os_Stat d'' p with
                  | Ok Dir => (None, d'')
                  | _ => (Some e, d'')
                  end
              | (None, d'') => (None, d'')
              end
          end
      end
  end.

Definition MkdirAll (d : Disk) (p : string) : error * Disk :=
  mkdir_chain (p :: rev (path_parents p)) d.


(** ** connector/local/connector.go *)

Module Local.

(** Modelled from the spec: the constant [connector.FS_SYS_DIR_ADMIN], which
    the package [connector] declares outside this source; section 6 gives the
    on-disk layout [admin/lock], [admin/<name>], [data/<prefix>/<DirentId>]. *)
Definition FS_SYS_DIR_ADMIN : string := "admin".

(** Modelled from the spec: the constant [connector.FS_SYS_DIR_DATA], from
    the same layout. *)
Definition FS_SYS_DIR_DATA : string := "data".

(** Modelled from the spec: the name of the lock file in the admin
    directory, from the same layout. *)
Definition LOCK_FILENAME : string := "lock".

Record LocalConnector := mkLocalConnector {
  path : string
}.

(** The process: its disk, its identifier ([os.Getpid]) and the package
    variable [activeConnections], a [map[string]bool] that [init] makes
    empty. *)
Record Process := mkProcess {
  disk : Disk;
  pid : Z;
  activeConnections : gmap string bool
}.

Definition set_disk (st : Process) (d : Disk) : Process :=
  {| disk := d; pid := pid st; activeConnections := activeConnections st |}.

Definition set_active (st : Process) (m : gmap string bool) : Process :=
  {| disk := disk st; pid := pid st; activeConnections := m |}.

(** Modelled from the spec: [getLockPath], a method of [LocalConnector]
    declared outside this source; the lock is the blob [admin/lock]. *)
Definition getLockPath (this : LocalConnector) : string :=
  Join (Join (path this) FS_SYS_DIR_ADMIN) LOCK_FILENAME.

Definition already_owned (this : LocalConnector) (owner : string) : Error :=
  ErrorNew ("Local filesystem (at " +:+ path this +:+ ") already owned by [" +:+ owner +:+ "]."
            +:+ " Ensure that the processes is dead and remove the lock or force the connector.").

(** [lock]: refuse an existing lock unless forced, otherwise write the
    process identifier in decimal. *)
Definition lock (this : LocalConnector) (force : bool) (st : Process) : error * Process :=
  let lockPath := getLockPath this in
  let write :=
    let '(err, d) := WriteFile (disk st) lockPath (pretty (pid st)) in
    (Wrap err lockPath, set_disk st d) in
  match os_Open (disk st) lockPath with
  | Err e =>
      if negb (IsNotExist e) then (Wrap (Some e) lockPath, st)
      else write
  | Ok inFile =>
      if negb force then
        match ReadAll lockPath inFile with
        | Err e => (Wrap (Some e) lockPath, st)
        | Ok owner => (Some (already_owned this owner), st)
        end
      else write
  end.

Definition unlock (this : LocalConnector) (st : Process) : error * Process :=
  let lockPath := getLockPath this in
  let '(err, d) := os_Remove (disk st) lockPath in
  (Wrap err lockPath, set_disk st d).

Section WithAbs.

(** [filepath.Abs], which depends on the working directory. *)
Variable filepath_Abs : string → result string.

(** [NewLocalConnector].  The result of [os.MkdirAll] is dropped by the
    source; what it did to the disk stays. *)
Definition NewLocalConnector (p : string) (force : bool) (st : Process)
  : result LocalConnector * Process :=
  match filepath_Abs p with
  | Err e => (Err (ErrorWrap e "Failed to create absolute path for local connector."), st)
  | Ok p =>
      match activeConnections st !! p with
      | Some _ =>
          (Err (ErrorNew ("Cannot create two connections to the same storage: " +:+ p)), st)
      | None =>
          let st1 := set_disk st (snd (MkdirAll (disk st) (Join p FS_SYS_DIR_ADMIN))) in
          let connector := {| path := p |} in
          match lock connector force st1 with
          | (Some e, st2) => (Err (ErrorWrap e p), st2)
          | (None, st2) => (Ok connector, st2)
          end
      end
  end.

End WithAbs.

(** [Close]: the table entry is set to [false], then the lock is removed. *)
Definition Close (this : LocalConnector) (st : Process) : error * Process :=
  let st1 := set_active st (<[path this := false]> (activeConnections st)) in
  let '(err, st2) := unlock this st1 in
  (WithStack err, st2).

Section WithChars.

(** [util.RANDOM_CHARS], the alphabet of dirent ids, and
    [connector.DATA_GROUP_PREFIX_LEN]; both are declared outside this
    source. *)
Variable RANDOM_CHARS : list ascii.
Variable DATA_GROUP_PREFIX_LEN : Z.

Definition storage_dirs (this : LocalConnector) : list string :=
  [path this; Join (path this) FS_SYS_DIR_ADMIN; Join (path this) FS_SYS_DIR_DATA]
  ++ map (λ prefix, Join (Join (path this) FS_SYS_DIR_DATA) (String prefix EmptyString))
         RANDOM_CHARS.

(** The loop over [dirs]: stop at the first directory that cannot be made. *)
Fixpoint mkdir_each (dirs : list string) (d : Disk) : error * Disk :=
  match dirs with
  | [] => (None, d)
  | dir :: rest =>
      match MkdirAll d dir with
      | (Some e, d') => (WithStack (Some e), d')
      | (None, d') => mkdir_each rest d'
      end
  end.

Definition PrepareStorage (this : LocalConnector) (st : Process) : error * Process :=
  if decide (DATA_GROUP_PREFIX_LEN ≠ 1) then
    (Some (ErrorNew ("Expected data prefix to be 1, not " +:+ pretty DATA_GROUP_PREFIX_LEN +:+ ".")), st)
  else
    let '(err, d) := mkdir_each (storage_dirs this) (disk st) in
    (err, set_disk st d).

End WithChars.

(** What the process does with connectors, for statements about every later
    attempt. *)
Inductive Action :=
| ActNew (p : string) (force : bool)
| ActClose (this : LocalConnector)
| ActPrepare (this : LocalConnector).

Section Actions.

Variable filepath_Abs : string → result string.
Variable RANDOM_CHARS : list ascii.
Variable DATA_GROUP_PREFIX_LEN : Z.

Definition step (st : Process) (a : Action) : Process :=
  match a with
  | ActNew p force => snd (NewLocalConnector filepath_Abs p force st)
  | ActClose this => snd (Close this st)
  | ActPrepare this => snd (PrepareStorage RANDOM_CHARS DATA_GROUP_PREFIX_LEN this st)
  end.

Definition steps (st : Process) (actions : list Action) : Process :=
  fold_left step actions st.

End Actions.

End Local.

(** ** bin/elfs-cli/main.go *)

Module Cli.

Definition UserId := Z.
Definition GroupId := Z.
Definition DirentId := string.

(** The fields of [user.User] the shell reads. *)
Record User := mkUser {
  Id : UserId;
  Name : string
}.

(** [group.Permission]; the shell reads its fields [Read] and [Write]. *)
Record Permission := mkPermission {
  Read : bool;
  Write : bool
}.

(** Modelled from the spec: [group.NewPermission], declared outside this
    source; a permission is the pair (read, write). *)
Definition NewPermission (read write : bool) : Permission :=
  {| Read := read; Write := write |}.

(** Modelled from the spec: the value of [util.ShaHash], a 256-bit digest. *)
Definition Digest := vec bool 256.

(** *** strconv.Atoi and filepath.Base *)

Definition digit_value (c : ascii) : option Z :=
  let n := Z.of_N (N_of_ascii c) in
  if decide (48 ≤ n ≤ 57) then Some (n - 48) else None.

Fixpoint parse_digits (acc : Z) (s : string) : option Z :=
  match s with
  | EmptyString => Some acc
  | String c rest =>
      match digit_value c with
      | Some v => parse_digits (10 * acc + v) rest
      | None => None
      end
  end.

Definition atoi_error (s why : string) : Error :=
  ForeignError ("strconv.Atoi: parsing " +:+ s +:+ ": " +:+ why).

(** [strconv.Atoi]: an optional sign, then decimal digits, within the range
    of a 64-bit [int]. *)
Definition Atoi (s : string) : result Z :=
  let '(negative, digits) :=
    match s with
    | String "+" rest => (false, rest)
    | String "-" rest => (true, rest)
    | _ => (false, s)
    end in
  match digits with
  | EmptyString => Err (atoi_error s "invalid syntax")
  | _ =>
      match parse_digits 0 digits with
      | None => Err (atoi_error s "invalid syntax")
      | Some n =>
          let v := if negative then - n else n in
          if decide (- 2 ^ 63 ≤ v < 2 ^ 63) then Ok v
          else Err (atoi_error s "value out of range")
      end
  end.

(** The last non-empty element seen while scanning a path. *)
Fixpoint base_from (cur last rest : string) : string :=
  match rest with
  | EmptyString => if decide (cur = EmptyString) then last else cur
  | String c rest' =>
      if decide (c = "/"%char)
      then base_from EmptyString (if decide (cur = EmptyString) then last else cur) rest'
      else base_from (cur +:+ String c EmptyString) last rest'
  end.

(** [filepath.Base]. *)
Definition Base (p : string) : string :=
  if decide (p = EmptyString) then "."
  else let b := base_from EmptyString EmptyString p in
       if decide (b = EmptyString) then SEP else b.

(** *** The driver, seen from the shell *)

(** The calls of the shell to [driver.Driver] and to standard output, each
    with the type of what comes back.  A reader is the bytes it yields. *)
Inductive Call : Type → Type :=
| CreateFilesystem (rootHash : Digest) : Call error
| UserAuth (name : string) (hash : Digest) : Call (option User * error)
| Put (user : UserId) (name : string) (reader : string)
      (perms : gmap GroupId Permission) (parent : DirentId) : Call error
| MakeDir (user : UserId) (name : string) (parent : DirentId)
      (perms : gmap GroupId Permission) : Call (DirentId * error)
| Move (user : UserId) (target newParent : DirentId) : Call error
| Rename (user : UserId) (target : DirentId) (newName : string) : Call error
| RemoveFile (user : UserId) (dirent : DirentId) : Call error
| RemoveDir (user : UserId) (dirent : DirentId) : Call error
| AddUser (user : UserId) (name : string) (hash : Digest) : Call (UserId * error)
| RemoveUser (user target : UserId) : Call error
| PromoteUser (user target : UserId) (group : GroupId) : Call error
| DemoteUser (user target : UserId) (group : GroupId) : Call error
| JoinGroup (user target : UserId) (group : GroupId) : Call error
| KickUser (user target : UserId) (group : GroupId) : Call error
| AddGroup (user : UserId) (name : string) : Call (GroupId * error)
| DeleteGroup (user : UserId) (group : GroupId) : Call error
| ChangeOwner (user : UserId) (dirent : DirentId) (owner : UserId) : Call error
| PutGroupAccess (user : UserId) (dirent : DirentId) (group : GroupId)
      (permission : Permission) : Call error
| RemoveGroupAccess (user : UserId) (dirent : DirentId) (group : GroupId) : Call error
| Println (line : string) : Call unit.

(** A run of shell code: it returns, it panics (a nil dereference or an
    index out of range), it exhausts the recursion budget of the model, or
    it makes a call and goes on with the answer. *)
Inductive Prog (R : Type) : Type :=
| Ret (r : R)
| Panic (msg : string)
| Exhausted
| Vis {X : Type} (c : Call X) (k : X → Prog R).
Arguments Ret {R} r.
Arguments Panic {R} msg.
Arguments Exhausted {R}.
Arguments Vis {R X} c k.

Fixpoint bind {A B : Type} (m : Prog A) (f : A → Prog B) : Prog B :=
  match m with
  | Ret a => f a
  | Panic msg => Panic msg
  | Exhausted => Exhausted
  | Vis c k => Vis c (λ x, bind (k x) f)
  end.

Definition call {X : Type} (c : Call X) : Prog X := Vis c Ret.

(** A call together with its answer type, as an entry of a trace. *)
Definition Entry : Type := { X : Type & Call X }.
Definition entry {X : Type} (c : Call X) : Entry := existT X c.

Inductive Outcome (R : Type) : Type :=
| Returned (r : R)
| Panicked (msg : string)
| OutOfFuel.
Arguments Returned {R} r.
Arguments Panicked {R} msg.
Arguments OutOfFuel {R}.

Section Run.

(** Any driver: a state and what each call answers and does to it. *)
Context {Drv : Type}.
Variable handle : ∀ X : Type, Call X → Drv → X * Drv.

(** The outcome of a run, with the driver's state afterwards and the calls
    made, in order. *)
Fixpoint run {R : Type} (p : Prog R) (s : Drv) : Outcome R * Drv * list Entry :=
  match p with
  | Ret r => (Returned r, s, [])
  | Panic msg => (Panicked msg, s, [])
  | Exhausted => (OutOfFuel, s, [])
  | Vis c k =>
      let '(x, s1) := handle _ c s in
      let '(o, s2, tr) := run (k x) s1 in
      (o, s2, entry c :: tr)
  end.

End Run.

(** *** The commands *)

(** [activeUser.Id]: a nil dereference when nobody is logged in. *)
Definition activeUser_Id {R : Type} (activeUser : option User) (k : UserId → Prog R) : Prog R :=
  match activeUser with
  | Some u => k (Id u)
  | None => Panic "invalid memory address or nil pointer dereference"
  end.

(** A command gets the invocation name, the arguments and the package
    variable [activeUser], and yields its error and [activeUser] afterwards. *)
Definition commandFunction : Type :=
  string → list string → option User → Prog (error * option User).

(** A command that leaves [activeUser] alone. *)
Definition keep (activeUser : option User) (p : Prog error) : Prog (error * option User) :=
  bind p (λ err, Ret (err, activeUser)).

Definition usage (command synopsis : string) : error :=
  Some (ErrorNew ("USAGE: " +:+ command +:+ synopsis)).

(** What [os.Stat] and [ioutil.ReadDir] tell about a file outside the
    filesystem. *)
Record FileInfo := mkFileInfo {
  FileName : string;
  IsDir : bool
}.

(** The files outside the filesystem, as the shell can read them:
    [os.Stat], [ioutil.ReadDir] and the bytes behind [os.Open]. *)
Record Host := mkHost {
  host_Stat : string → result FileInfo;
  host_ReadDir : string → result (list FileInfo);
  host_Open : string → result string
}.

Section Commands.

(** [util.ShaHash] and [dirent.ROOT_ID] are declared outside this source;
    [shellquote.Split] belongs to another package. *)
Variable ShaHash : string → Digest.
Variable ROOT_ID : DirentId.
Variable Split : string → result (list string).
Variable host : Host.

(** How deep [recursiveImport] may recurse in the model. *)
Variable budget : nat.

(** The commands that only read and print. *)
Variables cat export ls userlist grouplist : commandFunction.

Definition create : commandFunction := λ command args activeUser,
  match args with
  | [password] => keep activeUser (call (CreateFilesystem (ShaHash password)))
  | _ => Ret (usage command " <root password>", activeUser)
  end.

Definition help : commandFunction := λ command args activeUser,
  Ret (Some (ErrorNew "Operation not implemented."), activeUser).

Definition importFileInternal (activeUser : option User) (p : string) (parent : DirentId)
  : Prog error :=
  match host_Open host p with
  | Err e => Ret (Some (ErrorWrap e p))
  | Ok fileReader =>
      activeUser_Id activeUser (λ uid,
        bind (call (Put uid (Base p) fileReader ∅ parent)) (λ err,
          match err with
          | Some e => Ret (Some (ErrorWrap e p))
          | None => Ret None
          end))
  end.

(** The loop of [recursiveImport] over the children of [p]. *)
Fixpoint import_children (import : string → DirentId → Prog error)
    (p : string) (newId : DirentId) (children : list FileInfo) : Prog error :=
  match children with
  | [] => Ret None
  | child :: rest =>
      bind (import (Join p (FileName child)) newId) (λ err,
        match err with
        | Some e => Ret (Some (ErrorWrap e p))
        | None => import_children import p newId rest
        end)
  end.

Fixpoint recursiveImport (fuel : nat) (activeUser : option User) (p : string)
    (parent : DirentId) : Prog error :=
  match fuel with
  | O => Exhausted
  | S fuel' =>
      match host_Stat host p with
      | Err e => Ret (Some (ErrorWrap e p))
      | Ok fileInfo =>
          if negb (IsDir fileInfo) then
            bind (importFileInternal activeUser p parent) (λ err, Ret (WithStack err))
          else
            activeUser_Id activeUser (λ uid,
              bind (call (MakeDir uid (FileName fileInfo) parent ∅)) (λ '(newId, err),
                match err with
                | Some e => Ret (Some (ErrorWrap e p))
                | None =>
                    match host_ReadDir host p with
                    | Err e => Ret (Some (ErrorWrap e p))
                    | Ok children =>
                        import_children (recursiveImport fuel' activeUser) p newId children
                    end
                end))
      end
  end.

Definition importFile : commandFunction := λ command args activeUser,
  let go (localPath : string) (parent : DirentId) :=
    keep activeUser
      (bind (recursiveImport budget activeUser localPath parent) (λ err, Ret (WithStack err))) in
  match args with
  | [localPath] => go localPath ROOT_ID
  | [localPath; parent] => go localPath parent
  | _ => Ret (usage command " <external file> [parent id]", activeUser)
  end.

Definition login : commandFunction := λ command args activeUser,
  match args with
  | [username; password] =>
      bind (call (UserAuth username (ShaHash password))) (λ '(authUser, err),
        match err with
        | Some e => Ret (Some (ErrorWrap e "Failed to authenticate user."), activeUser)
        | None => Ret (None, authUser)
        end)
  | _ => Ret (usage command " <username> <password>", activeUser)
  end.

Definition mkdir : commandFunction := λ command args activeUser,
  let go (name : string) (parent : DirentId) :=
    keep activeUser
      (activeUser_Id activeUser (λ uid,
         bind (call (MakeDir uid name parent ∅)) (λ '(id, err),
           match err with
           | Some e => Ret (Some (ErrorWrap e ("Failed to make dir: " +:+ name)))
           | None => bind (call (Println id)) (λ _, Ret None)
           end))) in
  match args with
  | [name] => go name ROOT_ID
  | [name; parent] => go name parent
  | _ => Ret (usage command " <dir name> [parent id]", activeUser)
  end.

Definition move : commandFunction := λ command args activeUser,
  match args with
  | [targetId; newParentId] =>
      keep activeUser
        (activeUser_Id activeUser (λ uid,
           bind (call (Move uid targetId newParentId)) (λ err, Ret (WithStack err))))
  | _ => Ret (usage command " <target id> <new parent id>", activeUser)
  end.

Definition rename : commandFunction := λ command args activeUser,
  match args with
  | [targetId; newName] =>
      keep activeUser
        (activeUser_Id activeUser (λ uid,
           bind (call (Rename uid targetId newName)) (λ err, Ret (WithStack err))))
  | _ => Ret (usage command " <target id> <new name>", activeUser)
  end.

(** [remove]: one argument is a file, [-r] and one argument is a directory. *)
Definition remove : commandFunction := λ command args activeUser,
  if decide (length args < 1 ∨ 2 < length args
             ∨ (length args = 2 ∧ args !! 0%nat ≠ Some "-r"))%nat
  then Ret (usage command " [-r] <dirent id>", activeUser)
  else
    let isFile := negb (bool_decide (length args = 2%nat)) in
    let args := if isFile then args else drop 1 args in
    match args !! 0%nat with
    | None => Panic "index out of range"
    | Some direntId =>
        keep activeUser
          (activeUser_Id activeUser (λ uid,
             bind (if isFile then call (RemoveFile uid direntId)
                   else call (RemoveDir uid direntId))
                  (λ err, Ret (WithStack err))))
    end.

Definition useradd : commandFunction := λ command args activeUser,
  match args with
  | [username; password] =>
      keep activeUser
        (activeUser_Id activeUser (λ uid,
           bind (call (AddUser uid username (ShaHash password))) (λ '(_, err),
             Ret (Wrap err "Failed to add user"))))
  | _ => Ret (usage command " <username> <password>", activeUser)
  end.

Definition userdel : commandFunction := λ command args activeUser,
  match args with
  | [arg] =>
      match Atoi arg with
      | Err e => Ret (Some (ErrorWrap e "Failed to parse user id"), activeUser)
      | Ok userId =>
          keep activeUser
            (activeUser_Id activeUser (λ uid,
               bind (call (RemoveUser uid userId)) (λ err,
                 Ret (Wrap err "Failed to remove user"))))
      end
  | _ => Ret (usage command " <username>", activeUser)
  end.

(** The shape shared by [demote], [groupjoin], [groupkick] and [promote]:
    a group id, a user id, one call. *)
Definition group_user_command (op : UserId → UserId → GroupId → Call error)
  : commandFunction := λ command args activeUser,
  match args with
  | [groupArg; userArg] =>
      match Atoi groupArg with
      | Err e => Ret (Some (ErrorWrap e groupArg), activeUser)
      | Ok groupId =>
          match Atoi userArg with
          | Err e => Ret (Some (ErrorWrap e userArg), activeUser)
          | Ok userId =>
              keep activeUser
                (activeUser_Id activeUser (λ uid,
                   bind (call (op uid userId groupId)) (λ err, Ret (WithStack err))))
          end
      end
  | _ => Ret (usage command " <group id> <user id>", activeUser)
  end.

Definition demote : commandFunction := group_user_command DemoteUser.
Definition groupjoin : commandFunction := group_user_command JoinGroup.
Definition groupkick : commandFunction := group_user_command KickUser.
Definition promote : commandFunction := group_user_command PromoteUser.

Definition groupadd : commandFunction := λ command args activeUser,
  match args with
  | [name] =>
      keep activeUser
        (activeUser_Id activeUser (λ uid,
           bind (call (AddGroup uid name)) (λ '(newId, err),
             match err with
             | Some e => Ret (Some (ErrorStack e))
             | None => bind (call (Println (pretty newId))) (λ _, Ret None)
             end)))
  | _ => Ret (usage command " <group name>", activeUser)
  end.

Definition groupdel : commandFunction := λ command args activeUser,
  match args with
  | [groupArg] =>
      match Atoi groupArg with
      | Err e => Ret (Some (ErrorWrap e groupArg), activeUser)
      | Ok groupId =>
          keep activeUser
            (activeUser_Id activeUser (λ uid,
               bind (call (DeleteGroup uid groupId)) (λ err, Ret (WithStack err))))
      end
  | _ => Ret (usage command " <group id>", activeUser)
  end.

Definition chown : commandFunction := λ command args activeUser,
  match args with
  | [direntId; userArg] =>
      match Atoi userArg with
      | Err e => Ret (Some (ErrorWrap e userArg), activeUser)
      | Ok userId =>
          keep activeUser
            (activeUser_Id activeUser (λ uid,
               bind (call (ChangeOwner uid direntId userId)) (λ err, Ret (WithStack err))))
      end
  | _ => Ret (usage command " <dirent id> <new owner id>", activeUser)
  end.

Definition bad_permission (permission : Z) : Error :=
  ErrorNew ("Bad permission number: " +:+ pretty permission
            +:+ ". Use UNIX-style for read and write").

(** [permissionAdd]; [%] is Go's remainder, [Z.rem]. *)
Definition permissionAdd : commandFunction := λ command args activeUser,
  match args with
  | [direntId; groupArg; permissionArg] =>
      match Atoi groupArg with
      | Err e => Ret (Some (ErrorWrap e groupArg), activeUser)
      | Ok groupId =>
          match Atoi permissionArg with
          | Err e => Ret (Some (ErrorWrap e permissionArg), activeUser)
          | Ok permission =>
              if decide (permission ≠ 2 ∧ permission ≠ 4 ∧ permission ≠ 6) then
                Ret (Some (bad_permission permission), activeUser)
              else
                let read := bool_decide (Z.rem permission 4 = 0) in
                let write := bool_decide (Z.rem permission 2 = 0) in
                keep activeUser
                  (activeUser_Id activeUser (λ uid,
                     bind (call (PutGroupAccess uid direntId groupId (NewPermission read write)))
                          (λ err, Ret (WithStack err))))
          end
      end
  | _ => Ret (usage command " <dirent id> <group id> <2|4|6>", activeUser)
  end.

Definition permissionDelete : commandFunction := λ command args activeUser,
  match args with
  | [direntId; groupArg] =>
      match Atoi groupArg with
      | Err e => Ret (Some (ErrorWrap e groupArg), activeUser)
      | Ok groupId =>
          keep activeUser
            (activeUser_Id activeUser (λ uid,
               bind (call (RemoveGroupAccess uid direntId groupId)) (λ err, Ret (WithStack err))))
      end
  | _ => Ret (usage command " <dirent id> <group id>", activeUser)
  end.

Definition COMMAND_CREATE : string := "create".
Definition COMMAND_LOGIN : string := "login".
Definition COMMAND_QUIT : string := "quit".

(** The package variable [commands], as [init] fills it. *)
Definition commands : list (string * commandFunction) :=
  [ ("cat", cat); (COMMAND_CREATE, create); ("demote", demote); ("export", export);
    ("groupadd", groupadd); ("groupdel", groupdel); ("groupjoin", groupjoin);
    ("groupkick", groupkick); ("grouplist", grouplist); ("help", help);
    ("import", importFile); (COMMAND_LOGIN, login); ("ls", ls); ("mkdir", mkdir);
    ("mv", move); ("promote", promote); ("rename", rename); ("rm", remove);
    ("useradd", useradd); ("userdel", userdel); ("userlist", userlist);
    ("chown", chown); ("permadd", permissionAdd); ("permdel", permissionDelete) ].

Fixpoint lookup_command (table : list (string * commandFunction)) (operation : string)
  : option commandFunction :=
  match table with
  | [] => None
  | (name, f) :: rest =>
      if decide (name = operation) then Some f else lookup_command rest operation
  end.

(** [processCommand]: split the line, let only [login] and [create] through
    when nobody is logged in, look the operation up and run it. *)
Definition processCommand (command : string) (activeUser : option User)
  : Prog (error * option User) :=
  match Split command with
  | Err e => Ret (Some (ErrorWrap e "Failed to split command."), activeUser)
  | Ok [] => Panic "index out of range"
  | Ok (operation :: args) =>
      if bool_decide (activeUser = None) && bool_decide (operation ≠ COMMAND_LOGIN)
         && bool_decide (operation ≠ COMMAND_CREATE)
      then Ret (Some (ErrorNew "Need to login."), activeUser)
      else
        match lookup_command commands operation with
        | None => Ret (Some (ErrorNew ("Unknown operation: " +:+ operation)), activeUser)
        | Some commandFunc =>
            bind (commandFunc operation args activeUser) (λ '(err, activeUser'),
              Ret (Wrap err "Failed to run command", activeUser'))
        end
  end.

End Commands.

(** *** What import is to do, read off a tree *)







End Cli.

(** ** The driver's side of create and login *)

Module SpecDriver.

Import Cli.

(** Modelled from the spec: the users of [driver.CreateFilesystem] and
    [driver.UserAuth], which this source does not hold.  Section 3: a user has
    a UserId (0 is ROOT), a unique name and a password digest.  Section 4.6:
    create fails if any metadata blob already exists and initializes the ROOT
    user with the given hash.  Section 4.3: [userAuth(name, hash)] yields the
    user or AuthFailed. *)
Record UserRecord := mkUserRecord {
  user_id : UserId;
  user_name : string;
  user_hash : Digest
}.

(** Modelled from the spec: the part of the driver's state that create and
    login depend on, whether metadata blobs exist and the table of users. *)
Record Driver := mkDriver {
  has_metadata : bool;
  users : gmap UserId UserRecord
}.






Section Handler.

(** What the driver does on every other call. *)
Variable others : ∀ X : Type, Call X → Driver → X * Driver.


End Handler.

End SpecDriver.

(** ** The rest of connector.go *)

Module LocalIds.

Section WithType.

(** [connector.CONNECTOR_TYPE_LOCAL], declared outside this source. *)
Variable CONNECTOR_TYPE_LOCAL : string.

(** [GetId]: the connector type, a colon, the path. *)
Definition GetId (this : Local.LocalConnector) : string :=
  CONNECTOR_TYPE_LOCAL +:+ ":" +:+ Local.path this.

End WithType.

End LocalIds.

(** ** The rest of main.go *)

Module Shell.

Import Cli.

(** The user in whose name a call is made: the first argument of the
    driver's operations, where they have one. *)
Definition acting_user {X : Type} (c : Call X) : option UserId :=
  match c with
  | CreateFilesystem _ => None
  | UserAuth _ _ => None
  | Put user _ _ _ _ => Some user
  | MakeDir user _ _ _ => Some user
  | Move user _ _ => Some user
  | Rename user _ _ => Some user
  | RemoveFile user _ => Some user
  | RemoveDir user _ => Some user
  | AddUser user _ _ => Some user
  | RemoveUser user _ => Some user
  | PromoteUser user _ _ => Some user
  | DemoteUser user _ _ => Some user
  | JoinGroup user _ _ => Some user
  | KickUser user _ _ => Some user
  | AddGroup user _ => Some user
  | DeleteGroup user _ => Some user
  | ChangeOwner user _ _ => Some user
  | PutGroupAccess user _ _ _ => Some user
  | RemoveGroupAccess user _ _ => Some user
  | Println _ => None
  end.

(** The group permissions a call hands to the driver for a new dirent. *)
Definition new_dirent_perms {X : Type} (c : Call X) : option (gmap GroupId Permission) :=
  match c with
  | Put _ _ _ perms _ => Some perms
  | MakeDir _ _ _ perms => Some perms
  | _ => None
  end.

(** Every call a run can make, whatever is answered, satisfies [P]. *)
Fixpoint all_calls {R : Type} (P : ∀ X : Type, Call X → Prop) (p : Prog R) : Prop :=
  match p with
  | Vis c k => P _ c ∧ ∀ x, all_calls P (k x)
  | _ => True
  end.

(** Every result a run can return, whatever is answered, satisfies [Q]. *)
Fixpoint all_results {R : Type} (Q : R → Prop) (p : Prog R) : Prop :=
  match p with
  | Ret r => Q r
  | Vis c k => ∀ x, all_results Q (k x)
  | _ => True
  end.

(** A run cannot panic, whatever is answered. *)
Fixpoint no_panic {R : Type} (p : Prog R) : Prop :=
  match p with
  | Panic _ => False
  | Vis c k => ∀ x, no_panic (k x)
  | _ => True
  end.

(** *** encoding/hex and parseArgs *)

Definition hex_value (c : ascii) : option Z :=
  let n := Z.of_N (N_of_ascii c) in
  if decide (48 ≤ n ≤ 57) then Some (n - 48)
  else if decide (97 ≤ n ≤ 102) then Some (n - 87)
  else if decide (65 ≤ n ≤ 70) then Some (n - 55)
  else None.

Definition invalid_byte (c : ascii) : Error :=
  ForeignError ("encoding/hex: invalid byte: " +:+ String c EmptyString).

Definition ErrLength : Error := ForeignError "encoding/hex: odd length hex string".

(** [hex.DecodeString]: pairs of hex digits from left to right; a digit
    that is left over is checked before the odd length is reported. *)
Fixpoint DecodeString (s : string) : result (list Z) :=
  match s with
  | EmptyString => Ok []
  | String p EmptyString =>
      match hex_value p with
      | None => Err (invalid_byte p)
      | Some _ => Err ErrLength
      end
  | String p (String q rest) =>
      match hex_value p with
      | None => Err (invalid_byte p)
      | Some a =>
          match hex_value q with
          | None => Err (invalid_byte q)
          | Some b =>
              match DecodeString rest with
              | Ok bytes => Ok ((16 * a + b) :: bytes)
              | Err e => Err e
              end
          end
      end
  end.

Section WithType.

(** [connector.CONNECTOR_TYPE_LOCAL], declared outside this source. *)
Variable CONNECTOR_TYPE_LOCAL : string.

(** [parseArgs], on the values of the flags key, iv, type and path (each
    empty when the flag is not given): (key, iv, connector type, path). *)
Definition parseArgs (hexKey hexIV connectorType path : string)
  : result (list Z * list Z * string * string) :=
  if decide (hexKey = EmptyString) then Err (ErrorNew "Error: Key required.")
  else if decide (hexIV = EmptyString) then Err (ErrorNew "Error: IV required.")
  else
    let connectorType :=
      if decide (connectorType = EmptyString) then CONNECTOR_TYPE_LOCAL else connectorType in
    if decide (path = EmptyString) then Err (ErrorNew "Error: Path required.")
    else
      match DecodeString hexKey with
      | Err e => Err (ErrorWrap e "Could not decode hex key.")
      | Ok key =>
          match DecodeString hexIV with
          | Err e => Err (ErrorWrap e "Could not decode hex iv.")
          | Ok iv => Ok (key, iv, connectorType, path)
          end
      end.

End WithType.

End Shell.

(** ** Sample inputs *)

(** An empty disk, a process that has opened nothing yet, and [filepath.Abs]
    on paths that are already absolute and clean. *)
Definition empty_disk : Disk := {| nodes := ∅; denied := ∅ |}.

Definition fresh_process : Local.Process :=
  {| Local.disk := empty_disk; Local.pid := 4242; Local.activeConnections := ∅ |}.

Definition abs_clean (p : string) : result string := Ok p.

Definition srv_fs : Local.LocalConnector := {| Local.path := "/srv/fs" |}.

(** A driver that has no metadata yet. *)
Definition fresh_driver : SpecDriver.Driver :=
  {| SpecDriver.has_metadata := false; SpecDriver.users := ∅ |}.

(** A driver that answers every other call with no error and does nothing. *)
Definition quiet (X : Type) (c : Cli.Call X) (st : SpecDriver.Driver)
  : X * SpecDriver.Driver :=
  (match c in Cli.Call T return T with
   | Cli.CreateFilesystem _ => None
   | Cli.UserAuth _ _ => (None, None)
   | Cli.Put _ _ _ _ _ => None
   | Cli.MakeDir _ name _ _ => (name, None)
   | Cli.Move _ _ _ => None
   | Cli.Rename _ _ _ => None
   | Cli.RemoveFile _ _ => None
   | Cli.RemoveDir _ _ => None
   | Cli.AddUser _ _ _ => (1, None)
   | Cli.RemoveUser _ _ => None
   | Cli.PromoteUser _ _ _ => None
   | Cli.DemoteUser _ _ _ => None
   | Cli.JoinGroup _ _ _ => None
   | Cli.KickUser _ _ _ => None
   | Cli.AddGroup _ _ => (1, None)
   | Cli.DeleteGroup _ _ => None
   | Cli.ChangeOwner _ _ _ => None
   | Cli.PutGroupAccess _ _ _ _ => None
   | Cli.RemoveGroupAccess _ _ _ => None
   | Cli.Println _ => tt
   end, st).

(** A stand-in digest for sample runs: every bit is the parity of the
    length of the password. *)
Definition parity_digest (password : string) : Cli.Digest :=
  vreplicate 256 (Nat.even (String.length password)).

(** A stand-in for [shellquote.Split] on lines without quotes: the words
    between blanks. *)
Fixpoint words_from (cur rest : string) : list string :=
  match rest with
  | EmptyString => if decide (cur = EmptyString) then [] else [cur]
  | String c rest' =>
      if decide (c = " "%char)
      then (if decide (cur = EmptyString) then words_from EmptyString rest'
            else cur :: words_from EmptyString rest')
      else words_from (cur +:+ String c EmptyString) rest'
  end.

Definition split_words (line : string) : result (list string) :=
  Ok (words_from EmptyString line).

Definition root_user : Cli.User := {| Cli.Id := 0; Cli.Name := "root" |}.

(** External files: the directory /tmp/docs with the file a.txt and the
    directory sub, which holds b.txt. *)
Definition sample_host : Cli.Host :=
  {| Cli.host_Stat := λ p,
       if decide (p = "/tmp/docs") then Ok {| Cli.FileName := "docs"; Cli.IsDir := true |}
       else if decide (p = "/tmp/docs/a.txt")
            then Ok {| Cli.FileName := "a.txt"; Cli.IsDir := false |}
       else if decide (p = "/tmp/docs/sub")
            then Ok {| Cli.FileName := "sub"; Cli.IsDir := true |}
       else if decide (p = "/tmp/docs/sub/b.txt")
            then Ok {| Cli.FileName := "b.txt"; Cli.IsDir := false |}
       else Err (PathError "stat" p ENOENT);
     Cli.host_ReadDir := λ p,
       if decide (p = "/tmp/docs")
       then Ok [ {| Cli.FileName := "a.txt"; Cli.IsDir := false |};
                 {| Cli.FileName := "sub"; Cli.IsDir := true |} ]
       else if decide (p = "/tmp/docs/sub")
            then Ok [ {| Cli.FileName := "b.txt"; Cli.IsDir := false |} ]
       else Err (PathError "open" p ENOENT);
     Cli.host_Open := λ p,
       if decide (p = "/tmp/docs/a.txt") then Ok "alpha"
       else if decide (p = "/tmp/docs/sub/b.txt") then Ok "beta"
       else Err (PathError "open" p ENOENT) |}.


(** * Properties *)

(** ** The disk *)

Lemma os_Stat_dir d p :
  os_Stat d p = Ok Dir ↔ (p ∉ denied d) ∧ node_at d p = Some Dir.
Proof.
  unfold os_Stat. destruct (decide (p ∈ denied d)) as [Hd|Hd].
  - split; [discriminate | intros [? _]; contradiction].
  - destruct (node_at d p) as [n|] eqn:Hn.
    + split; [intros [= ->]; auto | intros [_ [= ->]]; reflexivity].
    + split; [discriminate | intros [_ ?]; discriminate].
Qed.

Lemma node_at_mono d d' p n :
  nodes d ⊆ nodes d' → node_at d p = Some n → node_at d' p = Some n.
Proof.
  unfold node_at. intros Hsub. destruct (decide (p = SEP)); [done|].
  intros Hp. eapply lookup_weaken; eauto.
Qed.

Lemma os_Stat_dir_mono d d' p :
  denied d' = denied d → nodes d ⊆ nodes d' →
  os_Stat d p = Ok Dir → os_Stat d' p = Ok Dir.
Proof.
  intros Hden Hsub. rewrite !os_Stat_dir, Hden.
  intros [? ?]. split; [done|]. by eapply node_at_mono.
Qed.

Lemma os_Mkdir_inv d p err d' :
  os_Mkdir d p = (err, d') →
  denied d' = denied d ∧ nodes d ⊆ nodes d' ∧
  (err = None → node_at d p = None ∧ parents_ok d p = true
                ∧ nodes d' = <[p := Dir]> (nodes d)).
Proof.
  unfold os_Mkdir. destruct (decide (p ∈ denied d)).
  { intros [= <- <-]. split_and!; done. }
  destruct (node_at d p) eqn:Hn.
  { intros [= <- <-]. split_and!; done. }
  destruct (parents_ok d p) eqn:Hp; simpl.
  - intros [= <- <-]. simpl. split_and!; [done| |done].
    apply insert_subseteq. unfold node_at in Hn.
    by destruct (decide (p = SEP)).
  - intros [= <- <-]. split_and!; done.
Qed.

Lemma os_Mkdir_ok_stat d p d' :
  os_Mkdir d p = (None, d') → os_Stat d' p = Ok Dir.
Proof.
  intros H. destruct (os_Mkdir_inv _ _ _ _ H) as (Hden & _ & Hok).
  destruct Hok as (Hn & _ & Hnodes); [done|].
  apply os_Stat_dir. unfold os_Mkdir in H.
  destruct (decide (p ∈ denied d)); [discriminate|].
  rewrite Hden. split; [done|].
  unfold node_at in *. destruct (decide (p = SEP)); [done|].
  rewrite Hnodes. apply lookup_insert_eq.
Qed.

Lemma mkdir_chain_extends chain : ∀ d err d',
  mkdir_chain chain d = (err, d') → denied d' = denied d ∧ nodes d ⊆ nodes d'.
Proof.
  induction chain as [|p up IH]; intros d err d'; simpl.
  { intros [= <- <-]. done. }
  destruct (os_Stat d p) as [[|data]|e].
  - intros [= <- <-]. done.
  - intros [= <- <-]. done.
  - destruct (mkdir_chain up d) as [[e1|] d1] eqn:Hup.
    + intros [= <- <-]. by eapply IH.
    + apply IH in Hup as [Hden1 Hsub1].
      destruct (os_Mkdir d1 p) as [[e2|] d2] eqn:Hmk;
        apply os_Mkdir_inv in Hmk as (Hden2 & Hsub2 & _).
      * assert (denied d2 = denied d ∧ nodes d ⊆ nodes d2) as Hres.
        { split; [congruence | by etrans]. }
        destruct (os_Stat d2 p) as [[|?]|?]; intros [= <- <-]; exact Hres.
      * intros [= <- <-]. split; [congruence | by etrans].
Qed.

Lemma mkdir_chain_ok_stat p up : ∀ d d',
  mkdir_chain (p :: up) d = (None, d') → os_Stat d' p = Ok Dir.
Proof.
  intros d d'. simpl.
  destruct (os_Stat d p) as [[|data]|e] eqn:Hst.
  - intros [= <-]. done.
  - discriminate.
  - destruct (mkdir_chain up d) as [[e1|] d1]; [discriminate|].
    destruct (os_Mkdir d1 p) as [[e2|] d2] eqn:Hmk.
    + destruct (os_Stat d2 p) as [[|?]|?] eqn:Hst2; [|discriminate..].
      intros [= <-]. done.
    + intros [= <-]. by eapply os_Mkdir_ok_stat.
Qed.

Lemma MkdirAll_extends d p err d' :
  MkdirAll d p = (err, d') → denied d' = denied d ∧ nodes d ⊆ nodes d'.
Proof. apply mkdir_chain_extends. Qed.

Lemma MkdirAll_ok_stat d p d' :
  MkdirAll d p = (None, d') → os_Stat d' p = Ok Dir.
Proof. apply mkdir_chain_ok_stat. Qed.

Lemma MkdirAll_noop d p :
  os_Stat d p = Ok Dir → MkdirAll d p = (None, d).
Proof. intros H. unfold MkdirAll. simpl. by rewrite H. Qed.

(** ** PrepareStorage *)

Lemma mkdir_each_ok dirs : ∀ d d',
  Local.mkdir_each dirs d = (None, d') →
  (denied d' = denied d ∧ nodes d ⊆ nodes d')
  ∧ Forall (λ p, os_Stat d' p = Ok Dir) dirs.
Proof.
  induction dirs as [|dir rest IH]; intros d d'; simpl.
  { intros [= <-]. done. }
  destruct (MkdirAll d dir) as [[e|] d1] eqn:Hmk; [discriminate|].
  intros Hrest. destruct (IH _ _ Hrest) as [[Hden Hsub] Hall].
  destruct (MkdirAll_extends _ _ _ _ Hmk) as [Hden1 Hsub1].
  split; [split; [congruence | by etrans]|].
  constructor; [|done].
  eapply os_Stat_dir_mono; [done..|]. by eapply MkdirAll_ok_stat.
Qed.

Lemma mkdir_each_noop dirs d :
  Forall (λ p, os_Stat d p = Ok Dir) dirs → Local.mkdir_each dirs d = (None, d).
Proof.
  induction 1 as [|dir rest Hdir _ IH]; simpl; [done|].
  by rewrite (MkdirAll_noop _ _ Hdir).
Qed.

Lemma set_disk_same st : Local.set_disk st (Local.disk st) = st.
Proof. by destruct st. Qed.

(** C8: PrepareStorage is idempotent.  When a call succeeds, every
    directory of the layout (the path itself, the admin directory, the data
    directory and one data subdirectory per character of the id alphabet) is
    a directory afterwards, and a second call succeeds and leaves the
    backend exactly as the first call left it. *)
Theorem PrepareStorage_idempotent
    (RANDOM_CHARS : list ascii) (DATA_GROUP_PREFIX_LEN : Z)
    (this : Local.LocalConnector) (st st' : Local.Process) :
  Local.PrepareStorage RANDOM_CHARS DATA_GROUP_PREFIX_LEN this st = (None, st') →
  Local.PrepareStorage RANDOM_CHARS DATA_GROUP_PREFIX_LEN this st' = (None, st')
  ∧ Forall (λ dir, os_Stat (Local.disk st') dir = Ok Dir)
           (Local.storage_dirs RANDOM_CHARS this).
Proof.
  unfold Local.PrepareStorage.
  destruct (decide (DATA_GROUP_PREFIX_LEN ≠ 1)); [discriminate|].
  destruct (Local.mkdir_each _ (Local.disk st)) as [err d] eqn:Hfirst.
  intros [= -> <-]. apply mkdir_each_ok in Hfirst as [_ Hall].
  split; [|exact Hall]. cbn [Local.disk Local.set_disk] in *.
  rewrite (mkdir_each_noop _ _ Hall). reflexivity.
Qed.

(** ** Paths *)

Lemma str_app_cons c a b : String c a +:+ b = String c (a +:+ b).
Proof. reflexivity. Qed.




Lemma str_length_app a b :
  String.length (a +:+ b) = (String.length a + String.length b)%nat.
Proof. induction a as [|x a IH]; [done | rewrite str_app_cons; simpl; by rewrite IH]. Qed.




Lemma Join_nonempty a b :
  a ≠ EmptyString → a ≠ SEP → b ≠ EmptyString → Join a b = a +:+ SEP +:+ b.
Proof.
  intros Ha Hs Hb. unfold Join.
  destruct (decide (a = EmptyString)); [done|]. destruct (decide (b = EmptyString)); [done|].
  destruct (decide (a = SEP)); done.
Qed.

Lemma Join_length a b :
  (String.length b ≤ String.length (Join a b))%nat.
Proof.
  unfold Join. destruct (decide (a = EmptyString)); [done|].
  destruct (decide (b = EmptyString)) as [->|]; [simpl; lia|].
  destruct (decide (a = SEP)); rewrite ?str_length_app; simpl; lia.
Qed.

Lemma admin_dir_proper q :
  Join q Local.FS_SYS_DIR_ADMIN ≠ EmptyString ∧ Join q Local.FS_SYS_DIR_ADMIN ≠ SEP.
Proof.
  pose proof (Join_length q Local.FS_SYS_DIR_ADMIN) as Hlen. simpl in Hlen.
  split; intros Heq; rewrite Heq in Hlen; simpl in Hlen; lia.
Qed.

Lemma getLockPath_eq this :
  Local.getLockPath this
  = Join (Local.path this) Local.FS_SYS_DIR_ADMIN +:+ SEP +:+ Local.LOCK_FILENAME.
Proof.
  unfold Local.getLockPath. destruct (admin_dir_proper (Local.path this)) as [? ?].
  by apply Join_nonempty.
Qed.


Lemma getLockPath_length this :
  (String.length (Join (Local.path this) Local.FS_SYS_DIR_ADMIN)
   < String.length (Local.getLockPath this))%nat.
Proof. rewrite getLockPath_eq, str_length_app. simpl. lia. Qed.

Lemma getLockPath_not_root this : Local.getLockPath this ≠ SEP.
Proof.
  pose proof (getLockPath_length this) as Hlen. intros Heq.
  rewrite Heq in Hlen. simpl in Hlen.
  pose proof (Join_length (Local.path this) Local.FS_SYS_DIR_ADMIN) as H5.
  simpl in H5. lia.
Qed.


(** ** Well-formed disks *)







(** ** The lock *)




(** ** The table of active connections *)

Lemma lock_active this force st :
  Local.activeConnections (snd (Local.lock this force st)) = Local.activeConnections st.
Proof.
  unfold Local.lock.
  destruct (WriteFile _ _ _) as [err d].
  destruct (os_Open _ _) as [n|e].
  - destruct force; simpl; [done|]. by destruct (ReadAll _ n).
  - by destruct (IsNotExist e).
Qed.

Lemma unlock_active this st :
  Local.activeConnections (snd (Local.unlock this st)) = Local.activeConnections st.
Proof. unfold Local.unlock. by destruct (os_Remove _ _). Qed.

Lemma Close_active this st :
  Local.activeConnections (snd (Local.Close this st))
  = <[Local.path this := false]> (Local.activeConnections st).
Proof.
  unfold Local.Close.
  pose proof (unlock_active this
    (Local.set_active st (<[Local.path this := false]> (Local.activeConnections st)))) as H.
  by destruct (Local.unlock _ _).
Qed.

(** [NewLocalConnector] never writes to the table. *)
Lemma NewLocalConnector_active filepath_Abs p force st :
  Local.activeConnections (snd (Local.NewLocalConnector filepath_Abs p force st))
  = Local.activeConnections st.
Proof.
  unfold Local.NewLocalConnector.
  destruct (filepath_Abs p) as [q|e]; [|done].
  destruct (Local.activeConnections st !! q); [done|].
  match goal with |- context [Local.lock ?c ?f ?s] =>
    pose proof (lock_active c f s) as H; destruct (Local.lock c f s) as [[e|] st2]
  end; simpl in *; done.
Qed.

Lemma PrepareStorage_active chars len this st :
  Local.activeConnections (snd (Local.PrepareStorage chars len this st))
  = Local.activeConnections st.
Proof.
  unfold Local.PrepareStorage. destruct (decide (len ≠ 1)); [done|].
  by destruct (Local.mkdir_each _ _).
Qed.

Lemma step_keeps_entry filepath_Abs chars len st a q :
  is_Some (Local.activeConnections st !! q) →
  is_Some (Local.activeConnections (Local.step filepath_Abs chars len st a) !! q).
Proof.
  intros Hq. destruct a as [p force|this|this]; simpl.
  - by rewrite NewLocalConnector_active.
  - rewrite Close_active, lookup_insert. by case_decide.
  - by rewrite PrepareStorage_active.
Qed.

Lemma steps_keep_entry filepath_Abs chars len actions : ∀ st q,
  is_Some (Local.activeConnections st !! q) →
  is_Some (Local.activeConnections (Local.steps filepath_Abs chars len st actions) !! q).
Proof.
  induction actions as [|a actions IH]; intros st q Hq; simpl; [done|].
  apply IH. by apply step_keeps_entry.
Qed.

(** ** Creating and closing connectors *)



(** C10: [Close] puts the path into the table of active connections with
    the value false, and whatever the process does with connectors
    afterwards, every attempt to create a local connector to that path fails
    on the table, forced or not. *)
Theorem Close_blocks_reconnect
    (filepath_Abs : string → result string) (RANDOM_CHARS : list ascii)
    (DATA_GROUP_PREFIX_LEN : Z) (this : Local.LocalConnector) (st : Local.Process)
    (later : list Local.Action) (p : string) (force : bool) :
  filepath_Abs p = Ok (Local.path this) →
  let closed := snd (Local.Close this st) in
  let st' := Local.steps filepath_Abs RANDOM_CHARS DATA_GROUP_PREFIX_LEN closed later in
  Local.activeConnections closed !! Local.path this = Some false
  ∧ Local.NewLocalConnector filepath_Abs p force st'
    = (Err (ErrorNew ("Cannot create two connections to the same storage: "
                      +:+ Local.path this)), st').
Proof.
  intros Habs closed st'.
  assert (Local.activeConnections closed !! Local.path this = Some false) as Hclosed.
  { unfold closed. rewrite Close_active. apply lookup_insert_eq. }
  split; [done|].
  assert (is_Some (Local.activeConnections st' !! Local.path this)) as [b Hb].
  { apply steps_keep_entry. by rewrite Hclosed. }
  unfold Local.NewLocalConnector. by rewrite Habs, Hb.
Qed.

(** C2, as the code runs: a first connector to /srv/fs is created on an
    empty disk and stays open, the table of active connections is still
    empty, and a second connector to the same path with force=true is
    created as well. *)
Theorem second_connector_with_force_succeeds :
  let first := Local.NewLocalConnector abs_clean "/srv/fs" false fresh_process in
  fst first = Ok srv_fs
  ∧ Local.activeConnections (snd first) = ∅
  ∧ fst (Local.NewLocalConnector abs_clean "/srv/fs" true (snd first)) = Ok srv_fs.
Proof. vm_compute. done. Qed.

(** ** The shell *)

(** A run that only returns leaves the driver alone. *)
Lemma run_Ret {Drv R : Type} (handle : ∀ X : Type, Cli.Call X → Drv → X * Drv)
    (r : R) (s : Drv) :
  Cli.run handle (Cli.Ret r) s = (Cli.Returned r, s, []).
Proof. reflexivity. Qed.

(** A logged-in command that makes one call and returns what became of its
    error. *)
Lemma run_one_call {Drv : Type} (handle : ∀ X : Type, Cli.Call X → Drv → X * Drv)
    (u : Cli.User) (c : Cli.UserId → Cli.Call error) (f : error → error) (s : Drv) :
  Cli.run handle
    (Cli.keep (Some u)
       (Cli.activeUser_Id (Some u) (λ uid,
          Cli.bind (Cli.call (c uid)) (λ err, Cli.Ret (f err))))) s
  = (let '(err, s1) := handle _ (c (Cli.Id u)) s in
     (Cli.Returned (f err, Some u), s1, [Cli.entry (c (Cli.Id u))])).
Proof. simpl. by destruct (handle _ _ _). Qed.


(** C1, as the code runs: permadd with 2 passes write-only, but with 4 it
    passes read and write, and with 6 it passes write without read. *)
Theorem permissionAdd_encoding {Drv : Type}
    (handle : ∀ X : Type, Cli.Call X → Drv → X * Drv) (s : Drv)
    (command : string) (u : Cli.User) (id : string) :
  let passed (permission : string) (read write : bool) :=
    Cli.run handle (Cli.permissionAdd command [id; "1"; permission] (Some u)) s
    = (let c := Cli.PutGroupAccess (Cli.Id u) id 1 (Cli.NewPermission read write) in
       let '(err, s1) := handle _ c s in
       (Cli.Returned (WithStack err, Some u), s1, [Cli.entry c])) in
  passed "2" false true ∧ passed "4" true true ∧ passed "6" false true.
Proof.
  split_and!.
  - apply (run_one_call handle u
      (λ uid, Cli.PutGroupAccess uid id 1 (Cli.NewPermission false true)) WithStack).
  - apply (run_one_call handle u
      (λ uid, Cli.PutGroupAccess uid id 1 (Cli.NewPermission true true)) WithStack).
  - apply (run_one_call handle u
      (λ uid, Cli.PutGroupAccess uid id 1 (Cli.NewPermission false true)) WithStack).
Qed.

(** C4: when the third argument of permadd is not a number, or is a number
    other than 2, 4 and 6, permadd returns an error and makes no call, so the
    driver is as it was; when the group id is a number, the error is the
    bad-permission error for that number. *)
Theorem permissionAdd_rejects
    (command id group permission : string) (activeUser : option Cli.User) :
  (∀ k, Cli.Atoi permission = Ok k → k ≠ 2 ∧ k ≠ 4 ∧ k ≠ 6) →
  ∃ e,
    Cli.permissionAdd command [id; group; permission] activeUser = Cli.Ret (Some e, activeUser)
    ∧ (∀ (Drv : Type) (handle : ∀ X : Type, Cli.Call X → Drv → X * Drv) (s : Drv),
         Cli.run handle (Cli.permissionAdd command [id; group; permission] activeUser) s
         = (Cli.Returned (Some e, activeUser), s, []))
    ∧ (∀ groupId k, Cli.Atoi group = Ok groupId → Cli.Atoi permission = Ok k →
         e = Cli.bad_permission k).
Proof.
  intros Hbad. unfold Cli.permissionAdd.
  destruct (Cli.Atoi group) as [groupId|e1].
  - destruct (Cli.Atoi permission) as [k|e2].
    + case_decide as Hk; [|by destruct Hk; apply Hbad].
      eexists. split_and!; [done|done|]. by intros ? ? _ [= <-].
    + eexists. split_and!; [done|done|]. discriminate.
  - eexists. split_and!; [done|done|]. discriminate.
Qed.

(** C9: for a line that splits into an operation and its arguments.  While
    nobody is logged in, every operation other than login and create is
    answered with the need-to-login error and no call is made, so the driver
    is as it was.  A login that the driver accepts makes its user the active
    user; with an active user the operation is looked up in the table of
    commands and run, and its error comes back wrapped. *)
Theorem processCommand_login_guard
    (ShaHash : string → Cli.Digest) (ROOT_ID : Cli.DirentId)
    (Split : string → result (list string)) (host : Cli.Host) (budget : nat)
    (cat export ls userlist grouplist : Cli.commandFunction)
    (line operation : string) (args : list string) :
  let process :=
    Cli.processCommand ShaHash ROOT_ID Split host budget cat export ls userlist grouplist in
  let table :=
    Cli.commands ShaHash ROOT_ID host budget cat export ls userlist grouplist in
  Split line = Ok (operation :: args) →
  (operation ≠ "login" → operation ≠ "create" →
     process line None = Cli.Ret (Some (ErrorNew "Need to login."), None)
     ∧ ∀ (Drv : Type) (handle : ∀ X : Type, Cli.Call X → Drv → X * Drv) (s : Drv),
         Cli.run handle (process line None) s
         = (Cli.Returned (Some (ErrorNew "Need to login."), None), s, []))
  ∧ (∀ (Drv : Type) (handle : ∀ X : Type, Cli.Call X → Drv → X * Drv) (s s1 : Drv)
       (name password : string) (u : Cli.User),
       operation = "login" → args = [name; password] →
       handle _ (Cli.UserAuth name (ShaHash password)) s = ((Some u, None), s1) →
       Cli.run handle (process line None) s
       = (Cli.Returned (None, Some u), s1, [Cli.entry (Cli.UserAuth name (ShaHash password))]))
  ∧ (∀ (u : Cli.User) (commandFunc : Cli.commandFunction),
       Cli.lookup_command table operation = Some commandFunc →
       process line (Some u)
       = Cli.bind (commandFunc operation args (Some u)) (λ '(err, activeUser'),
           Cli.Ret (Wrap err "Failed to run command", activeUser'))).
Proof.
  intros process table Hsplit. unfold process, Cli.processCommand. rewrite Hsplit.
  split_and!.
  - intros Hlogin Hcreate.
    rewrite !bool_decide_eq_true_2 by done. done.
  - intros Drv handle s s1 name password u -> -> Hauth. simpl. by rewrite Hauth.
  - intros u commandFunc Hlookup. fold table. by rewrite Hlookup.
Qed.

(** ** Import *)






(** ** create and login *)






(** ** The statements at sample inputs *)

(** PrepareStorage twice on an empty disk, with the alphabet a, b. *)
Lemma PrepareStorage_idempotent_witness :
  let st' := snd (Local.PrepareStorage ["a"; "b"]%char 1 srv_fs fresh_process) in
  Local.PrepareStorage ["a"; "b"]%char 1 srv_fs st' = (None, st')
  ∧ Forall (λ dir, os_Stat (Local.disk st') dir = Ok Dir)
           (Local.storage_dirs ["a"; "b"]%char srv_fs).
Proof.
  apply (PrepareStorage_idempotent ["a"; "b"]%char 1 srv_fs fresh_process).
  vm_compute. reflexivity.
Defined.


(** Close, then a forced attempt, then another attempt. *)
Lemma Close_blocks_reconnect_witness :
  let closed := snd (Local.Close srv_fs fresh_process) in
  let st' := Local.steps abs_clean ["a"; "b"]%char 1 closed [Local.ActNew "/srv/fs" true] in
  Local.activeConnections closed !! "/srv/fs" = Some false
  ∧ Local.NewLocalConnector abs_clean "/srv/fs" true st'
    = (Err (ErrorNew "Cannot create two connections to the same storage: /srv/fs"), st').
Proof.
  apply (Close_blocks_reconnect abs_clean ["a"; "b"]%char 1 srv_fs fresh_process
           [Local.ActNew "/srv/fs" true] "/srv/fs" true eq_refl).
Defined.

(** permadd with 7. *)
Lemma permissionAdd_rejects_witness :
  ∃ e,
    Cli.permissionAdd "permadd" ["f"; "1"; "7"] (Some root_user)
    = Cli.Ret (Some e, Some root_user)
    ∧ (∀ (Drv : Type) (handle : ∀ X : Type, Cli.Call X → Drv → X * Drv) (s : Drv),
         Cli.run handle (Cli.permissionAdd "permadd" ["f"; "1"; "7"] (Some root_user)) s
         = (Cli.Returned (Some e, Some root_user), s, []))
    ∧ (∀ groupId k, Cli.Atoi "1" = Ok groupId → Cli.Atoi "7" = Ok k →
         e = Cli.bad_permission k).
Proof.
  apply (permissionAdd_rejects "permadd" "f" "1" "7" (Some root_user)).
  intros k Hk. vm_compute in Hk. injection Hk as <-. lia.
Defined.


(** The line ls: refused before login, dispatched after it. *)
Lemma processCommand_login_guard_witness :
  let process :=
    Cli.processCommand parity_digest "root-dir" split_words sample_host 8
      Cli.help Cli.help Cli.help Cli.help Cli.help in
  process "ls" None = Cli.Ret (Some (ErrorNew "Need to login."), None)
  ∧ process "ls" (Some root_user)
    = Cli.bind (Cli.help "ls" [] (Some root_user)) (λ '(err, activeUser'),
        Cli.Ret (Wrap err "Failed to run command", activeUser')).
Proof.
  intros process.
  pose proof (processCommand_login_guard parity_digest "root-dir" split_words sample_host 8
                Cli.help Cli.help Cli.help Cli.help Cli.help "ls" "ls" [] eq_refl)
    as (Hgate & _ & Hrun).
  split.
  - apply Hgate; discriminate.
  - apply Hrun. reflexivity.
Defined.




(** * More properties of the connector *)

Lemma WriteFile_inv d p data r d' :
  WriteFile d p data = (r, d') →
  (r ≠ None ∧ d' = d)
  ∨ (r = None ∧ (p ∉ denied d) ∧ is_dir_at d p = false ∧ parents_ok d p = true
     ∧ d' = set_nodes d (<[p := File data]> (nodes d))).
Proof.
  unfold WriteFile. destruct (decide (p ∈ denied d)).
  { intros [= <- <-]. by left. }
  destruct (is_dir_at d p) eqn:Hdir.
  { intros [= <- <-]. by left. }
  destruct (parents_ok d p) eqn:Hparents; simpl; intros [= <- <-].
  - right. by split_and!.
  - by left.
Qed.

Lemma lock_inv this force st r st' :
  Local.lock this force st = (r, st') →
  (r ≠ None ∧ st' = st)
  ∨ (r = None ∧ (Local.getLockPath this ∉ denied (Local.disk st))
     ∧ is_dir_at (Local.disk st) (Local.getLockPath this) = false
     ∧ parents_ok (Local.disk st) (Local.getLockPath this) = true
     ∧ st' = Local.set_disk st
               (set_nodes (Local.disk st)
                  (<[Local.getLockPath this := File (pretty (Local.pid st))]>
                     (nodes (Local.disk st))))).
Proof.
  unfold Local.lock.
  destruct (WriteFile _ _ _) as [err d] eqn:Hwrite.
  assert ((Wrap err (Local.getLockPath this), Local.set_disk st d) = (r, st') →
          (r ≠ None ∧ st' = st)
          ∨ (r = None ∧ (Local.getLockPath this ∉ denied (Local.disk st))
             ∧ is_dir_at (Local.disk st) (Local.getLockPath this) = false
             ∧ parents_ok (Local.disk st) (Local.getLockPath this) = true
             ∧ st' = Local.set_disk st
                       (set_nodes (Local.disk st)
                          (<[Local.getLockPath this := File (pretty (Local.pid st))]>
                             (nodes (Local.disk st)))))) as Hw.
  { intros [= <- <-]. apply WriteFile_inv in Hwrite as [[Herr ->]|(-> & ? & ? & ? & ->)].
    - left. split; [by destruct err | apply set_disk_same].
    - right. by split_and!. }
  destruct (os_Open _ _) as [inFile|e].
  - destruct force; simpl; [exact Hw|].
    destruct (ReadAll _ inFile); intros [= <- <-]; by left.
  - destruct (IsNotExist e); simpl; [exact Hw|]. intros [= <- <-]. by left.
Qed.

(** What a successful [NewLocalConnector] amounts to. *)
Lemma NewLocalConnector_ok_inv filepath_Abs p force st c st1 :
  Local.NewLocalConnector filepath_Abs p force st = (Ok c, st1) →
  filepath_Abs p = Ok (Local.path c)
  ∧ Local.activeConnections st !! Local.path c = None
  ∧ Local.activeConnections st1 = Local.activeConnections st
  ∧ Local.pid st1 = Local.pid st
  ∧ (Local.getLockPath c ∉ denied (Local.disk st1))
  ∧ nodes (Local.disk st1) !! Local.getLockPath c = Some (File (pretty (Local.pid st)))
  ∧ os_Open (Local.disk st1) (Local.getLockPath c) = Ok (File (pretty (Local.pid st))).
Proof.
  unfold Local.NewLocalConnector.
  destruct (filepath_Abs p) as [q|e]; [|discriminate].
  destruct (Local.activeConnections st !! q) eqn:Hfree; [discriminate|].
  destruct (Local.lock _ force _) as [[e|] st2] eqn:Hlock; [discriminate|].
  intros [= <- <-]. simpl.
  apply lock_inv in Hlock as [[? _]|(_ & Hden & _ & _ & ->)]; [done|]. simpl in *.
  assert (nodes (set_nodes (snd (MkdirAll (Local.disk st) (Join q Local.FS_SYS_DIR_ADMIN)))
            (<[Local.getLockPath {| Local.path := q |} := File (pretty (Local.pid st))]>
               (nodes (snd (MkdirAll (Local.disk st) (Join q Local.FS_SYS_DIR_ADMIN))))))
          !! Local.getLockPath {| Local.path := q |}
          = Some (File (pretty (Local.pid st)))) as Hnode.
  { simpl. apply lookup_insert_eq. }
  split_and!; try done.
  unfold os_Open, node_at. simpl.
  destruct (decide (_ ∈ _)); [done|].
  destruct (decide (_ = SEP)) as [Hroot|]; [by apply getLockPath_not_root in Hroot|].
  by rewrite lookup_insert_eq.
Qed.

(** X1: of the operations on connectors, only [Close] writes the table of
    active connections: creating a connector and preparing the storage leave
    it as it is, whether they succeed or fail, and [Close] sets the entry of
    its path to false and touches no other entry. *)
Theorem only_Close_writes_the_table
    (filepath_Abs : string → result string) (RANDOM_CHARS : list ascii)
    (DATA_GROUP_PREFIX_LEN : Z) (st : Local.Process) (a : Local.Action) :
  Local.activeConnections (Local.step filepath_Abs RANDOM_CHARS DATA_GROUP_PREFIX_LEN st a)
  = match a with
    | Local.ActClose this => <[Local.path this := false]> (Local.activeConnections st)
    | _ => Local.activeConnections st
    end.
Proof.
  destruct a as [p force|this|this]; simpl.
  - apply NewLocalConnector_active.
  - apply Close_active.
  - apply PrepareStorage_active.
Qed.



(** X4: closing a connector that was just created succeeds and removes
    the lock file and nothing else; the path is then in the table with the
    value false. *)
Theorem Close_after_create_removes_the_lock
    (filepath_Abs : string → result string) (p : string) (force : bool)
    (st st1 : Local.Process) (c : Local.LocalConnector) :
  Local.NewLocalConnector filepath_Abs p force st = (Ok c, st1) →
  ∃ st2,
    Local.Close c st1 = (None, st2)
    ∧ nodes (Local.disk st2) = delete (Local.getLockPath c) (nodes (Local.disk st1))
    ∧ denied (Local.disk st2) = denied (Local.disk st1)
    ∧ Local.activeConnections st2 = <[Local.path c := false]> (Local.activeConnections st1).
Proof.
  intros (_ & _ & _ & _ & Hden & Hnode & _)%NewLocalConnector_ok_inv.
  unfold Local.Close, Local.unlock, os_Remove. simpl.
  destruct (decide (_ ∈ _)); [done|]. rewrite Hnode. simpl. eauto.
Qed.

(** X5: [Close] on a backend whose lock file is missing (for instance a
    second [Close]) returns the error of the removal, wrapped with the lock
    path, leaves the disk as it is, and still puts the path into the table
    with the value false. *)
Theorem Close_without_lock_fails
    (this : Local.LocalConnector) (st : Local.Process) :
  nodes (Local.disk st) !! Local.getLockPath this = None →
  ∃ errno,
    Local.Close this st
    = (Some (ErrorStack (ErrorWrap (PathError "remove" (Local.getLockPath this) errno)
                                   (Local.getLockPath this))),
       Local.set_active st (<[Local.path this := false]> (Local.activeConnections st))).
Proof.
  intros Hmissing. unfold Local.Close, Local.unlock, os_Remove. simpl.
  destruct (decide (_ ∈ _)); [by eexists|]. rewrite Hmissing. by eexists.
Qed.

Lemma os_Mkdir_new_dirs d p err d' x nd :
  os_Mkdir d p = (err, d') → nodes d' !! x = Some nd →
  nodes d !! x = Some nd ∨ nd = Dir.
Proof.
  unfold os_Mkdir. destruct (decide (p ∈ denied d)); [intros [= _ <-]; auto|].
  destruct (node_at d p); [intros [= _ <-]; auto|].
  destruct (parents_ok d p); simpl; intros [= _ <-]; [|auto]. simpl.
  rewrite lookup_insert. case_decide; [intros [= <-]; auto | auto].
Qed.

Lemma mkdir_chain_new_dirs chain : ∀ d err d' x nd,
  mkdir_chain chain d = (err, d') → nodes d' !! x = Some nd →
  nodes d !! x = Some nd ∨ nd = Dir.
Proof.
  induction chain as [|p up IH]; intros d err d' x nd; simpl.
  { intros [= _ <-]. auto. }
  destruct (os_Stat d p) as [[|data]|e]; try (intros [= _ <-]; by auto).
  destruct (mkdir_chain up d) as [[e1|] d1] eqn:Hup.
  - intros [= _ <-]. by eapply IH.
  - assert (∀ e2 d2, os_Mkdir d1 p = (e2, d2) → nodes d2 !! x = Some nd →
                     nodes d !! x = Some nd ∨ nd = Dir) as Hmk.
    { intros e2 d2 Hmk Hx. destruct (os_Mkdir_new_dirs _ _ _ _ _ _ Hmk Hx); [|auto].
      by eapply IH. }
    destruct (os_Mkdir d1 p) as [[e2|] d2] eqn:Hmk2.
    + destruct (os_Stat d2 p) as [[|?]|?]; intros [= _ <-]; by eapply Hmk.
    + intros [= _ <-]. by eapply Hmk.
Qed.

Lemma mkdir_each_extends dirs : ∀ d err d',
  Local.mkdir_each dirs d = (err, d') →
  denied d' = denied d ∧ nodes d ⊆ nodes d'
  ∧ ∀ x nd, nodes d' !! x = Some nd → nodes d !! x = Some nd ∨ nd = Dir.
Proof.
  induction dirs as [|dir rest IH]; intros d err d'; simpl.
  { intros [= _ <-]. auto. }
  destruct (MkdirAll d dir) as [[e|] d1] eqn:Hmk.
  - intros [= _ <-]. destruct (MkdirAll_extends _ _ _ _ Hmk) as [? ?].
    split_and!; [done..|]. intros x nd. by eapply mkdir_chain_new_dirs.
  - intros Hrest. destruct (IH _ _ _ Hrest) as (Hden & Hsub & Hnew).
    destruct (MkdirAll_extends _ _ _ _ Hmk) as [Hden1 Hsub1].
    split_and!; [congruence | by etrans |].
    intros x nd Hx. destruct (Hnew x nd Hx) as [Hx1|?]; [|auto].
    by eapply mkdir_chain_new_dirs.
Qed.

(** X6: [PrepareStorage] only ever adds directories, also when it fails
    half way: whatever was on the disk is still there with the same content,
    every new node is a directory, and the process identifier and the table
    of active connections are untouched. *)
Theorem PrepareStorage_only_adds_directories
    (RANDOM_CHARS : list ascii) (DATA_GROUP_PREFIX_LEN : Z)
    (this : Local.LocalConnector) (st st' : Local.Process) (err : error) :
  Local.PrepareStorage RANDOM_CHARS DATA_GROUP_PREFIX_LEN this st = (err, st') →
  (∀ x nd, nodes (Local.disk st) !! x = Some nd → nodes (Local.disk st') !! x = Some nd)
  ∧ (∀ x nd, nodes (Local.disk st') !! x = Some nd →
            nodes (Local.disk st) !! x = Some nd ∨ nd = Dir)
  ∧ denied (Local.disk st') = denied (Local.disk st)
  ∧ Local.pid st' = Local.pid st
  ∧ Local.activeConnections st' = Local.activeConnections st.
Proof.
  unfold Local.PrepareStorage.
  destruct (decide (DATA_GROUP_PREFIX_LEN ≠ 1)).
  { intros [= _ <-]. split_and!; auto. }
  destruct (Local.mkdir_each _ _) as [err1 d] eqn:Heach. intros [= _ <-]. simpl.
  apply mkdir_each_extends in Heach as (Hden & Hsub & Hnew).
  split_and!; try done. intros x nd Hx. by eapply lookup_weaken.
Qed.

(** X7: the id of a connector identifies its path: two local connectors
    have the same id exactly when they have the same path. *)
Theorem GetId_inj (CONNECTOR_TYPE_LOCAL : string) (c1 c2 : Local.LocalConnector) :
  LocalIds.GetId CONNECTOR_TYPE_LOCAL c1 = LocalIds.GetId CONNECTOR_TYPE_LOCAL c2
  ↔ Local.path c1 = Local.path c2.
Proof.
  unfold LocalIds.GetId. split; [|by intros ->].
  intros H. by repeat apply (inj (String.append _)) in H.
Qed.


(** * More properties of the shell *)

Lemma all_calls_mono {R : Type} (P Q : ∀ X : Type, Cli.Call X → Prop) (p : Cli.Prog R) :
  (∀ X c, P X c → Q X c) → Shell.all_calls P p → Shell.all_calls Q p.
Proof.
  intros HPQ. induction p as [r|msg| |X c k IH]; simpl; try done.
  intros [Hc Hk]. split.
  - apply HPQ. exact Hc.
  - intros x. apply IH. apply Hk.
Qed.

Lemma all_calls_bind {A B : Type} (P : ∀ X : Type, Cli.Call X → Prop)
    (m : Cli.Prog A) (f : A → Cli.Prog B) :
  Shell.all_calls P m → (∀ a, Shell.all_calls P (f a)) →
  Shell.all_calls P (Cli.bind m f).
Proof.
  intros Hm Hf. induction m as [r|msg| |X c k IH]; simpl in *; try done.
  destruct Hm as [Hc Hk]. split.
  - exact Hc.
  - intros x. apply IH. apply Hk.
Qed.

(** What holds of every call a run can make holds of the calls it makes. *)
Lemma all_calls_run {R Drv : Type} (P : ∀ X : Type, Cli.Call X → Prop)
    (handle : ∀ X : Type, Cli.Call X → Drv → X * Drv) (p : Cli.Prog R) :
  Shell.all_calls P p →
  ∀ s, Forall (λ e : Cli.Entry, P (projT1 e) (projT2 e)) (snd (Cli.run handle p s)).
Proof.
  induction p as [r|msg| |X c k IH]; simpl; intros Hp s; try by constructor.
  destruct Hp as [Hc Hk]. destruct (handle X c s) as [x s1].
  specialize (IH x (Hk x) s1). destruct (Cli.run handle (k x) s1) as [[o s2] tr].
  simpl in *. by constructor.
Qed.

Lemma all_results_run {R Drv : Type} (Q : R → Prop)
    (handle : ∀ X : Type, Cli.Call X → Drv → X * Drv) (p : Cli.Prog R) :
  Shell.all_results Q p →
  ∀ s r s' trace, Cli.run handle p s = (Cli.Returned r, s', trace) → Q r.
Proof.
  induction p as [r0|msg| |X c k IH]; simpl; intros Hp s r s' trace; try by intros [= <-].
  destruct (handle X c s) as [x s1].
  destruct (Cli.run handle (k x) s1) as [[o s2] tr] eqn:Hrun.
  intros [= -> <- <-]. by eapply IH.
Qed.

Lemma keep_results (activeUser : option Cli.User) (p : Cli.Prog error) :
  Shell.all_results (λ r, snd r = activeUser) (Cli.keep activeUser p).
Proof. unfold Cli.keep. induction p as [r|msg| |X c k IH]; simpl; auto. Qed.

Lemma lookup_command_elem table : ∀ operation f,
  Cli.lookup_command table operation = Some f → (operation, f) ∈ table.
Proof.
  induction table as [|[name g] rest IH]; intros operation f; simpl; [done|].
  case_decide as Hname.
  - intros [= <-]. subst. by left.
  - intros H. right. by apply IH.
Qed.

(** The entries of the table of commands, one goal for each. *)
Ltac table_entries H :=
  apply lookup_command_elem in H; unfold Cli.commands in H;
  repeat (apply elem_of_cons in H as [H|H]; [injection H as -> ->|]);
  [..|by apply elem_of_nil in H].

Ltac in_list :=
  repeat first [apply list_elem_of_here | apply list_elem_of_further].

Ltac unfold_commands :=
  unfold Cli.create, Cli.help, Cli.importFile, Cli.login, Cli.mkdir, Cli.move, Cli.rename,
    Cli.remove, Cli.useradd, Cli.userdel, Cli.demote, Cli.groupjoin, Cli.groupkick,
    Cli.promote, Cli.group_user_command, Cli.groupadd, Cli.groupdel, Cli.chown,
    Cli.permissionAdd, Cli.permissionDelete.

(** X9: only login changes who is logged in.  Whatever its arguments and
    whatever the driver answers, a command of the table other than login
    (and other than the five commands that only read and print, which are
    not modelled) returns with the active user it was started with. *)
Theorem only_login_changes_the_active_user
    (ShaHash : string → Cli.Digest) (ROOT_ID : Cli.DirentId) (host : Cli.Host)
    (budget : nat) (cat export ls userlist grouplist : Cli.commandFunction)
    (operation : string) (commandFunc : Cli.commandFunction) :
  Cli.lookup_command
    (Cli.commands ShaHash ROOT_ID host budget cat export ls userlist grouplist) operation
  = Some commandFunc →
  operation ∉ ["login"; "cat"; "export"; "ls"; "userlist"; "grouplist"] →
  ∀ (command : string) (args : list string) (activeUser : option Cli.User)
    (Drv : Type) (handle : ∀ X : Type, Cli.Call X → Drv → X * Drv) (s s' : Drv)
    (r : error * option Cli.User) (trace : list Cli.Entry),
    Cli.run handle (commandFunc command args activeUser) s = (Cli.Returned r, s', trace) →
    snd r = activeUser.
Proof.
  intros Hlookup Hname command args activeUser Drv handle s s' r trace.
  apply (all_results_run (λ r, snd r = activeUser)). revert Hname.
  table_entries Hlookup; intros Hname;
    try (by destruct Hname; in_list);
    unfold_commands; repeat case_match; first [apply keep_results | done].
Qed.

(** What import hands to the driver: a new dirent with empty group
    permissions, in the name of the active user. *)
Lemma import_children_calls (P : ∀ X : Type, Cli.Call X → Prop)
    (import : string → Cli.DirentId → Cli.Prog error) (p : string)
    (newId : Cli.DirentId) (children : list Cli.FileInfo) :
  (∀ q parent, Shell.all_calls P (import q parent)) →
  Shell.all_calls P (Cli.import_children import p newId children).
Proof.
  intros Himport. induction children as [|child rest IH]; simpl; [done|].
  apply all_calls_bind; [apply Himport|]. intros [e|]; [done | exact IH].
Qed.

Lemma recursiveImport_calls (host : Cli.Host) (activeUser : option Cli.User) (fuel : nat) :
  ∀ (p : string) (parent : Cli.DirentId),
    Shell.all_calls
      (λ X c, Shell.new_dirent_perms c = Some ∅
              ∧ ∃ u, activeUser = Some u ∧ Shell.acting_user c = Some (Cli.Id u))
      (Cli.recursiveImport host fuel activeUser p parent).
Proof.
  induction fuel as [|fuel IH]; intros p parent; simpl; [done|].
  destruct (Cli.host_Stat host p) as [fileInfo|e]; [|done].
  destruct (Cli.IsDir fileInfo); simpl.
  - destruct activeUser as [u|]; simpl; [|done].
    split; [eauto|]. intros [newId [e|]]; [done|].
    destruct (Cli.host_ReadDir host p) as [children|e]; [|done].
    by apply import_children_calls.
  - unfold Cli.importFileInternal.
    destruct (Cli.host_Open host p) as [data|e]; [|done].
    destruct activeUser as [u|]; simpl; [|done].
    split; [eauto|]. by intros [e|].
Qed.

(** X10: import only creates.  For any external files, any recursion
    budget and any arguments, every call import makes is a Put or a MakeDir
    with empty group permissions, made in the name of the active user;
    without an active user it makes no call at all. *)
Theorem import_only_creates
    (ROOT_ID : Cli.DirentId) (host : Cli.Host) (budget : nat)
    (command : string) (args : list string) (activeUser : option Cli.User)
    (Drv : Type) (handle : ∀ X : Type, Cli.Call X → Drv → X * Drv) (s : Drv) :
  Forall (λ e : Cli.Entry,
            Shell.new_dirent_perms (projT2 e) = Some ∅
            ∧ ∃ u, activeUser = Some u ∧ Shell.acting_user (projT2 e) = Some (Cli.Id u))
         (snd (Cli.run handle (Cli.importFile ROOT_ID host budget command args activeUser) s)).
Proof.
  apply (all_calls_run
           (λ X c, Shell.new_dirent_perms c = Some ∅
                   ∧ ∃ u, activeUser = Some u ∧ Shell.acting_user c = Some (Cli.Id u))).
  unfold Cli.importFile, Cli.keep.
  repeat case_match; try done;
    (apply all_calls_bind; [|done]); (apply all_calls_bind; [|done]);
    apply recursiveImport_calls.
Qed.

(** X11: the shell never acts in another user's name.  Whatever the
    arguments, every call a command of the table makes to the driver that
    names an acting user names the active user; in particular no such call is
    made while nobody is logged in.  (The five commands that only read and
    print are not modelled.) *)
Theorem commands_act_as_the_active_user
    (ShaHash : string → Cli.Digest) (ROOT_ID : Cli.DirentId) (host : Cli.Host)
    (budget : nat) (cat export ls userlist grouplist : Cli.commandFunction)
    (operation : string) (commandFunc : Cli.commandFunction) :
  Cli.lookup_command
    (Cli.commands ShaHash ROOT_ID host budget cat export ls userlist grouplist) operation
  = Some commandFunc →
  operation ∉ ["cat"; "export"; "ls"; "userlist"; "grouplist"] →
  ∀ (command : string) (args : list string) (activeUser : option Cli.User)
    (Drv : Type) (handle : ∀ X : Type, Cli.Call X → Drv → X * Drv) (s : Drv),
    Forall (λ e : Cli.Entry,
              ∀ uid, Shell.acting_user (projT2 e) = Some uid →
                     ∃ u, activeUser = Some u ∧ uid = Cli.Id u)
           (snd (Cli.run handle (commandFunc command args activeUser) s)).
Proof.
  intros Hlookup Hname command args activeUser Drv handle s.
  apply (all_calls_run
           (λ X c, ∀ uid, Shell.acting_user c = Some uid →
                          ∃ u, activeUser = Some u ∧ uid = Cli.Id u)).
  revert Hname.
  table_entries Hlookup; intros Hname; try (by destruct Hname; in_list).
  all: first
    [ progress unfold Cli.importFile; unfold Cli.keep;
      eapply (all_calls_mono
                (λ X c, Shell.new_dirent_perms c = Some ∅
                        ∧ ∃ u, activeUser = Some u
                               ∧ Shell.acting_user c = Some (Cli.Id u)));
      [ intros X c [_ (u & -> & Hc)] uid Huid; exists u; split; [done | congruence]
      | repeat case_match; try done;
        (apply all_calls_bind; [|done]); (apply all_calls_bind; [|done]);
        apply recursiveImport_calls ]
    | unfold_commands; unfold Cli.keep; destruct activeUser as [u|];
      repeat case_match; simpl; try done;
      repeat first [ split | intros [? [?|]] | intros [?|] | intros ? ];
      simplify_eq/=; eauto ].
Qed.


(** X13: the commands that take a numeric id as their last argument
    (userdel, demote, groupdel, groupjoin, groupkick, promote, chown, permadd,
    permdel) make no call when that argument is not a number: whatever the
    other arguments, they return an error and leave the active user as it
    is. *)
Theorem numeric_commands_reject_non_numbers
    (ShaHash : string → Cli.Digest) (ROOT_ID : Cli.DirentId) (host : Cli.Host)
    (budget : nat) (cat export ls userlist grouplist : Cli.commandFunction)
    (operation : string) (commandFunc : Cli.commandFunction) :
  Cli.lookup_command
    (Cli.commands ShaHash ROOT_ID host budget cat export ls userlist grouplist) operation
  = Some commandFunc →
  operation ∈ ["userdel"; "demote"; "groupdel"; "groupjoin"; "groupkick"; "promote";
               "chown"; "permadd"; "permdel"] →
  ∀ (command : string) (args : list string) (activeUser : option Cli.User),
    (∀ a z, last args = Some a → Cli.Atoi a ≠ Ok z) →
    ∃ e, commandFunc command args activeUser = Cli.Ret (Some e, activeUser).
Proof.
  intros Hlookup Hname command args activeUser Hlast. revert Hname.
  table_entries Hlookup; intros Hname;
    try (by repeat (apply elem_of_cons in Hname as [Hname|Hname]; [discriminate|]);
            apply elem_of_nil in Hname).
  all: unfold_commands;
    destruct args as [|a [|b [|c [|d rest]]]]; try (eexists; reflexivity);
    repeat match goal with
           | |- context [Cli.Atoi ?x] =>
               let z := fresh "z" in let Hz := fresh "Hz" in
               destruct (Cli.Atoi x) as [z|] eqn:Hz
           end;
    try (eexists; reflexivity);
    exfalso; eapply Hlast; [reflexivity | eassumption].
Qed.

(** ** parseArgs *)

Lemma hex_value_bound c a : Shell.hex_value c = Some a → 0 ≤ a < 16.
Proof.
  unfold Shell.hex_value. repeat case_decide; intros [= <-]; lia.
Qed.

Lemma DecodeString_ok (n : nat) : ∀ s bytes,
  (String.length s ≤ n)%nat → Shell.DecodeString s = Ok bytes →
  String.length s = (2 * length bytes)%nat ∧ Forall (λ b, 0 ≤ b < 256) bytes.
Proof.
  induction n as [|n IH]; intros s bytes Hlen.
  { destruct s; [|simpl in Hlen; lia]. intros [= <-]. by split. }
  destruct s as [|p [|q rest]]; simpl.
  - intros [= <-]. by split.
  - by destruct (Shell.hex_value p).
  - destruct (Shell.hex_value p) as [a|] eqn:Ha; [|done].
    destruct (Shell.hex_value q) as [b|] eqn:Hb; [|done].
    destruct (Shell.DecodeString rest) as [rest_bytes|e] eqn:Hrest; [|done].
    intros [= <-]. simpl in Hlen.
    destruct (IH rest rest_bytes) as [Hl Hb256]; [lia|done|].
    apply hex_value_bound in Ha, Hb. split; [simpl; lia|].
    constructor; [lia | done].
Qed.

(** X14: what [parseArgs] returns when it succeeds.  The key and the IV
    are not empty and hold one byte for every two hex digits given, the path
    is the one given and is not empty, and the connector type is the one
    given or, when none was given, the local type. *)
Theorem parseArgs_ok
    (CONNECTOR_TYPE_LOCAL hexKey hexIV connectorType path : string)
    (key iv : list Z) (type' path' : string) :
  Shell.parseArgs CONNECTOR_TYPE_LOCAL hexKey hexIV connectorType path
  = Ok (key, iv, type', path') →
  key ≠ [] ∧ iv ≠ []
  ∧ String.length hexKey = (2 * length key)%nat
  ∧ String.length hexIV = (2 * length iv)%nat
  ∧ Forall (λ b, 0 ≤ b < 256) key ∧ Forall (λ b, 0 ≤ b < 256) iv
  ∧ path' = path ∧ path ≠ EmptyString
  ∧ type' = (if decide (connectorType = EmptyString)
             then CONNECTOR_TYPE_LOCAL else connectorType).
Proof.
  unfold Shell.parseArgs.
  destruct (decide (hexKey = EmptyString)) as [|Hkey]; [done|].
  destruct (decide (hexIV = EmptyString)) as [|Hiv]; [done|].
  destruct (decide (path = EmptyString)) as [|Hpath]; [done|].
  destruct (Shell.DecodeString hexKey) as [k|e] eqn:Hk; [|done].
  destruct (Shell.DecodeString hexIV) as [i|e] eqn:Hi; [|done].
  intros [= <- <- <- <-].
  apply (DecodeString_ok (String.length hexKey)) in Hk as [Hklen Hkb]; [|done].
  apply (DecodeString_ok (String.length hexIV)) in Hi as [Hilen Hib]; [|done].
  split_and!; try done.
  - intros ->. by destruct hexKey.
  - intros ->. by destruct hexIV.
Qed.

(** ** Numbers printed and read back *)

Lemma digit_value_char (r : N) :
  (r < 10)%N → Cli.digit_value (pretty_N_char r) = Some (Z.of_N r).
Proof.
  intros Hr.
  assert (r = 0 ∨ r = 1 ∨ r = 2 ∨ r = 3 ∨ r = 4 ∨ r = 5 ∨ r = 6 ∨ r = 7 ∨ r = 8 ∨ r = 9)%N
    as Hcases by lia.
  repeat (destruct Hcases as [->|Hcases]; [reflexivity|]). by subst.
Qed.

(** Reading the digits [pretty_N_go] puts in front of [s] shifts the
    number read so far and adds [x]. *)
Lemma parse_digits_pretty_go (x : N) :
  (0 < x)%N →
  ∃ m : Z, ∀ (acc : Z) (s : string),
    Cli.parse_digits acc (pretty_N_go x s) = Cli.parse_digits (acc * m + Z.of_N x) s.
Proof.
  induction (N.lt_wf_0 x) as [x _ IH]; intros Hx.
  pose proof (N.div_mod x 10 ltac:(done)) as Hdiv.
  pose proof (N.mod_lt x 10 ltac:(done)) as Hmod.
  destruct (decide (x `div` 10 = 0)%N) as [Hq|Hq].
  - exists 10. intros acc s. rewrite pretty_N_go_step, Hq, pretty_N_go_0 by done.
    simpl. rewrite digit_value_char by done. f_equal. lia.
  - destruct (IH (x `div` 10)%N) as [m Hm]; [apply N.div_lt; lia | lia |].
    exists (10 * m). intros acc s. rewrite pretty_N_go_step, Hm by done.
    simpl. rewrite digit_value_char by done. f_equal. lia.
Qed.

Lemma pretty_go_starts_with_digit (x : N) :
  (0 < x)%N →
  ∀ s, ∃ c rest v, pretty_N_go x s = String c rest ∧ Cli.digit_value c = Some v.
Proof.
  induction (N.lt_wf_0 x) as [x _ IH]; intros Hx s.
  pose proof (N.mod_lt x 10 ltac:(done)) as Hmod.
  rewrite pretty_N_go_step by done.
  destruct (decide (x `div` 10 = 0)%N) as [Hq|Hq].
  - rewrite Hq, pretty_N_go_0. eexists _, _, _. split; [done|]. by apply digit_value_char.
  - apply IH; [apply N.div_lt; lia | by apply N.neq_0_lt_0].
Qed.

Lemma Atoi_digit_first (c : ascii) (rest : string) (v : Z) :
  Cli.digit_value c = Some v →
  Cli.Atoi (String c rest)
  = match Cli.parse_digits 0 (String c rest) with
    | None => Err (Cli.atoi_error (String c rest) "invalid syntax")
    | Some n =>
        if decide (- 2 ^ 63 ≤ n < 2 ^ 63) then Ok n
        else Err (Cli.atoi_error (String c rest) "value out of range")
    end.
Proof.
  destruct c as [[] [] [] [] [] [] [] []]; intros Hv;
    first [ reflexivity | by vm_compute in Hv ].
Qed.

(** [strconv.Atoi] reads back what [%d] prints, for every 64-bit [int]. *)
Lemma Atoi_pretty (z : Z) : - 2 ^ 63 ≤ z < 2 ^ 63 → Cli.Atoi (pretty z) = Ok z.
Proof.
  intros Hz. destruct z as [|p|p].
  - reflexivity.
  - change (pretty (Z.pos p)) with (pretty_N_go (N.pos p) EmptyString).
    destruct (pretty_go_starts_with_digit (N.pos p) ltac:(lia) EmptyString)
      as (c & rest & v & Heq & Hv).
    destruct (parse_digits_pretty_go (N.pos p) ltac:(lia)) as [m Hm].
    specialize (Hm 0 EmptyString). rewrite Heq in Hm |- *.
    rewrite (Atoi_digit_first _ _ _ Hv), Hm. simpl.
    rewrite decide_True by lia. f_equal.
  - change (pretty (Z.neg p)) with (String "-" (pretty_N_go (N.pos p) EmptyString)).
    destruct (pretty_go_starts_with_digit (N.pos p) ltac:(lia) EmptyString)
      as (c & rest & v & Heq & Hv).
    destruct (parse_digits_pretty_go (N.pos p) ltac:(lia)) as [m Hm].
    specialize (Hm 0 EmptyString). rewrite Heq in Hm.
    unfold Cli.Atoi. rewrite Heq, Hm. simpl.
    rewrite decide_True by lia. f_equal.
Qed.

(** X15: the id that groupadd prints is the id that groupdel reads.  When
    the driver adds the group and answers with an id (a Go [int], hence
    within 64 bits), groupadd prints one line, and groupdel given that line
    asks the driver to delete the group of exactly that id. *)
Theorem groupadd_prints_what_groupdel_reads {Drv : Type}
    (handle : ∀ X : Type, Cli.Call X → Drv → X * Drv) (s s1 : Drv)
    (u : Cli.User) (name : string) (newId : Cli.GroupId) :
  handle _ (Cli.AddGroup (Cli.Id u) name) s = ((newId, None), s1) →
  - 2 ^ 63 ≤ newId < 2 ^ 63 →
  ∃ line s2,
    Cli.run handle (Cli.groupadd "groupadd" [name] (Some u)) s
    = (Cli.Returned (None, Some u), s2,
       [Cli.entry (Cli.AddGroup (Cli.Id u) name); Cli.entry (Cli.Println line)])
    ∧ ∀ s3,
        Cli.run handle (Cli.groupdel "groupdel" [line] (Some u)) s3
        = (let '(err, s4) := handle _ (Cli.DeleteGroup (Cli.Id u) newId) s3 in
           (Cli.Returned (WithStack err, Some u), s4,
            [Cli.entry (Cli.DeleteGroup (Cli.Id u) newId)])).
Proof.
  intros Hadd Hrange.
  destruct (handle _ (Cli.Println (pretty newId)) s1) as [[] s2] eqn:Hprint.
  exists (pretty newId), s2. split.
  - simpl. rewrite Hadd. simpl. by rewrite Hprint.
  - intros s3. unfold Cli.groupdel.
    change (Cli.Atoi (pretty newId)) with (Cli.Atoi (pretty (newId : Z))).
    rewrite (Atoi_pretty _ Hrange).
    apply (run_one_call handle u (λ uid, Cli.DeleteGroup uid newId) WithStack).
Qed.

(** ** No panic *)

Lemma no_panic_bind {A B : Type} (m : Cli.Prog A) (f : A → Cli.Prog B) :
  Shell.no_panic m → (∀ a, Shell.no_panic (f a)) → Shell.no_panic (Cli.bind m f).
Proof.
  intros Hm Hf. induction m as [r|msg| |X c k IH]; simpl in *; try done.
  intros x. apply IH. apply Hm.
Qed.

Lemma no_panic_run {R Drv : Type} (handle : ∀ X : Type, Cli.Call X → Drv → X * Drv)
    (p : Cli.Prog R) :
  Shell.no_panic p → ∀ s msg s' trace, Cli.run handle p s ≠ (Cli.Panicked msg, s', trace).
Proof.
  induction p as [r|msg0| |X c k IH]; simpl; intros Hp s msg s' trace; try done.
  destruct (handle X c s) as [x s1].
  destruct (Cli.run handle (k x) s1) as [[o s2] tr] eqn:Hrun.
  intros [= -> <- <-]. by eapply IH.
Qed.

Lemma import_children_no_panic (import : string → Cli.DirentId → Cli.Prog error)
    (p : string) (newId : Cli.DirentId) (children : list Cli.FileInfo) :
  (∀ q parent, Shell.no_panic (import q parent)) →
  Shell.no_panic (Cli.import_children import p newId children).
Proof.
  intros Himport. induction children as [|child rest IH]; simpl; [done|].
  apply no_panic_bind; [apply Himport|]. intros [e|]; [done | exact IH].
Qed.

Lemma recursiveImport_no_panic (host : Cli.Host) (u : Cli.User) (fuel : nat) :
  ∀ (p : string) (parent : Cli.DirentId),
    Shell.no_panic (Cli.recursiveImport host fuel (Some u) p parent).
Proof.
  induction fuel as [|fuel IH]; intros p parent; simpl; [done|].
  destruct (Cli.host_Stat host p) as [fileInfo|e]; [|done].
  destruct (Cli.IsDir fileInfo); simpl.
  - intros [newId [e|]]; [done|].
    destruct (Cli.host_ReadDir host p) as [children|e]; [|done].
    by apply import_children_no_panic.
  - unfold Cli.importFileInternal.
    destruct (Cli.host_Open host p) as [data|e]; [|done]. simpl. by intros [e|].
Qed.

(** X16: the nil dereference of the active user cannot be reached through
    [processCommand].  For a line that splits into an operation and its
    arguments, and whoever is or is not logged in, the run of the operation
    does not panic, whatever the arguments and whatever the driver answers:
    without a user only login and create get past the check, and they do not
    read the active user.  (The five commands that only read and print are
    not modelled.) *)
Theorem processCommand_does_not_panic
    (ShaHash : string → Cli.Digest) (ROOT_ID : Cli.DirentId)
    (Split : string → result (list string)) (host : Cli.Host) (budget : nat)
    (cat export ls userlist grouplist : Cli.commandFunction)
    (line operation : string) (args : list string) (activeUser : option Cli.User) :
  Split line = Ok (operation :: args) →
  operation ∉ ["cat"; "export"; "ls"; "userlist"; "grouplist"] →
  ∀ (Drv : Type) (handle : ∀ X : Type, Cli.Call X → Drv → X * Drv) (s s' : Drv)
    (msg : string) (trace : list Cli.Entry),
    Cli.run handle
      (Cli.processCommand ShaHash ROOT_ID Split host budget cat export ls userlist grouplist
         line activeUser) s
    ≠ (Cli.Panicked msg, s', trace).
Proof.
  intros Hsplit Hname Drv handle s s' msg trace. apply no_panic_run.
  unfold Cli.processCommand. rewrite Hsplit.
  destruct (bool_decide (activeUser = None) && bool_decide (operation ≠ Cli.COMMAND_LOGIN)
            && bool_decide (operation ≠ Cli.COMMAND_CREATE)) eqn:Hcheck; [done|].
  destruct (Cli.lookup_command _ operation) as [commandFunc|] eqn:Hlookup; [|done].
  apply no_panic_bind; [|by intros [err au]].
  revert Hname Hcheck.
  table_entries Hlookup; intros Hname Hcheck; try (by destruct Hname; in_list).
  all: destruct activeUser as [u|]; [|try (by vm_compute in Hcheck)].
  all: first
    [ progress unfold Cli.importFile; unfold Cli.keep; repeat case_match; try done;
      (apply no_panic_bind; [|done]); (apply no_panic_bind; [|done]);
      apply recursiveImport_no_panic
    | unfold_commands; unfold Cli.keep; repeat case_match; simpl; try done;
      repeat first [ intros [? [?|]] | intros [?|] | intros ? ]; simpl; try done ].
  all: match goal with Hshape : ¬ (_ ∨ _) |- _ => apply Hshape end;
    destruct args as [|a [|b [|c rest]]]; simpl in *; try done; left; lia.
Qed.

(** ** These properties at sample inputs *)



Lemma Close_after_create_removes_the_lock_witness :
  let st1 := snd (Local.NewLocalConnector abs_clean "/srv/fs" false fresh_process) in
  ∃ st2,
    Local.Close srv_fs st1 = (None, st2)
    ∧ nodes (Local.disk st2) = delete (Local.getLockPath srv_fs) (nodes (Local.disk st1))
    ∧ denied (Local.disk st2) = denied (Local.disk st1)
    ∧ Local.activeConnections st2
      = <[Local.path srv_fs := false]> (Local.activeConnections st1).
Proof.
  apply (Close_after_create_removes_the_lock abs_clean "/srv/fs" false fresh_process).
  vm_compute. reflexivity.
Defined.

Lemma Close_without_lock_fails_witness :
  ∃ errno,
    Local.Close srv_fs fresh_process
    = (Some (ErrorStack (ErrorWrap (PathError "remove" (Local.getLockPath srv_fs) errno)
                                   (Local.getLockPath srv_fs))),
       Local.set_active fresh_process
         (<[Local.path srv_fs := false]> (Local.activeConnections fresh_process))).
Proof.
  apply (Close_without_lock_fails srv_fs fresh_process). apply lookup_empty.
Defined.

Lemma PrepareStorage_only_adds_directories_witness :
  let st := snd (Local.NewLocalConnector abs_clean "/srv/fs" false fresh_process) in
  let st' := snd (Local.PrepareStorage ["a"; "b"]%char 1 srv_fs st) in
  (∀ x nd, nodes (Local.disk st) !! x = Some nd → nodes (Local.disk st') !! x = Some nd)
  ∧ (∀ x nd, nodes (Local.disk st') !! x = Some nd →
             nodes (Local.disk st) !! x = Some nd ∨ nd = Dir)
  ∧ denied (Local.disk st') = denied (Local.disk st)
  ∧ Local.pid st' = Local.pid st
  ∧ Local.activeConnections st' = Local.activeConnections st.
Proof.
  intros st st'.
  apply (PrepareStorage_only_adds_directories ["a"; "b"]%char 1 srv_fs st st' None).
  vm_compute. reflexivity.
Defined.


Lemma not_in_five (operation : string) :
  operation ≠ "cat" → operation ≠ "export" → operation ≠ "ls" →
  operation ≠ "userlist" → operation ≠ "grouplist" →
  operation ∉ ["cat"; "export"; "ls"; "userlist"; "grouplist"].
Proof.
  intros ? ? ? ? ? H.
  repeat (apply elem_of_cons in H as [H|H]; [done|]). by apply elem_of_nil in H.
Defined.

Lemma only_login_changes_the_active_user_witness :
  ∃ r s' trace,
    Cli.run quiet (Cli.move "mv" ["a"; "b"] (Some root_user)) fresh_driver
    = (Cli.Returned r, s', trace)
    ∧ snd r = Some root_user.
Proof.
  assert ("mv" ∉ ["login"; "cat"; "export"; "ls"; "userlist"; "grouplist"]) as Hnot.
  { intros H. apply elem_of_cons in H as [H|H]; [discriminate|].
    revert H. apply not_in_five; discriminate. }
  eexists _, _, _. split; [reflexivity|].
  apply (only_login_changes_the_active_user parity_digest "root-dir" sample_host 8
           Cli.help Cli.help Cli.help Cli.help Cli.help "mv" Cli.move eq_refl Hnot
           "mv" ["a"; "b"] (Some root_user) SpecDriver.Driver quiet fresh_driver
           fresh_driver (None, Some root_user)
           [Cli.entry (Cli.Move (Cli.Id root_user) "a" "b")]).
  reflexivity.
Defined.

Lemma commands_act_as_the_active_user_witness :
  Forall (λ e : Cli.Entry,
            ∀ uid, Shell.acting_user (projT2 e) = Some uid →
                   ∃ u, Some root_user = Some u ∧ uid = Cli.Id u)
         (snd (Cli.run quiet (Cli.remove "rm" ["f"] (Some root_user)) fresh_driver)).
Proof.
  apply (commands_act_as_the_active_user parity_digest "root-dir" sample_host 8
           Cli.help Cli.help Cli.help Cli.help Cli.help "rm" Cli.remove eq_refl).
  apply not_in_five; discriminate.
Defined.


Lemma numeric_commands_reject_non_numbers_witness :
  ∃ e, Cli.chown "chown" ["f"; "bob"] (Some root_user) = Cli.Ret (Some e, Some root_user).
Proof.
  apply (numeric_commands_reject_non_numbers parity_digest "root-dir" sample_host 8
           Cli.help Cli.help Cli.help Cli.help Cli.help "chown" Cli.chown eq_refl).
  - in_list.
  - intros a z [= <-]. vm_compute. discriminate.
Defined.

Lemma parseArgs_ok_witness :
  [0; 255] ≠ [] ∧ [10] ≠ []
  ∧ String.length "00ff" = (2 * length [0; 255])%nat
  ∧ String.length "0A" = (2 * length [10])%nat
  ∧ Forall (λ b, 0 ≤ b < 256) [0; 255] ∧ Forall (λ b, 0 ≤ b < 256) [10]
  ∧ "/srv/fs" = "/srv/fs" ∧ "/srv/fs" ≠ EmptyString
  ∧ "local" = (if decide (EmptyString = EmptyString) then "local" else EmptyString).
Proof.
  apply (parseArgs_ok "local" "00ff" "0A" EmptyString "/srv/fs"). reflexivity.
Defined.

Lemma groupadd_prints_what_groupdel_reads_witness :
  ∃ line s2,
    Cli.run quiet (Cli.groupadd "groupadd" ["staff"] (Some root_user)) fresh_driver
    = (Cli.Returned (None, Some root_user), s2,
       [Cli.entry (Cli.AddGroup (Cli.Id root_user) "staff"); Cli.entry (Cli.Println line)])
    ∧ ∀ s3,
        Cli.run quiet (Cli.groupdel "groupdel" [line] (Some root_user)) s3
        = (let '(err, s4) := quiet _ (Cli.DeleteGroup (Cli.Id root_user) 1) s3 in
           (Cli.Returned (WithStack err, Some root_user), s4,
            [Cli.entry (Cli.DeleteGroup (Cli.Id root_user) 1)])).
Proof.
  apply (groupadd_prints_what_groupdel_reads quiet fresh_driver fresh_driver root_user
           "staff" 1 eq_refl).
  lia.
Defined.

Lemma processCommand_does_not_panic_witness :
  Cli.run quiet
    (Cli.processCommand parity_digest "root-dir" split_words sample_host 8
       Cli.help Cli.help Cli.help Cli.help Cli.help "rm -r" (Some root_user)) fresh_driver
  ≠ (Cli.Panicked "index out of range", fresh_driver, []).
Proof.
  apply (processCommand_does_not_panic parity_digest "root-dir" split_words sample_host 8
           Cli.help Cli.help Cli.help Cli.help Cli.help "rm -r" "rm" ["-r"] (Some root_user)
           eq_refl).
  apply not_in_five; discriminate.
Defined.
